(** * polygon_centroid_cross.py: centroid calculator and cross-path projector

    A shallow embedding of [polygon_centroid], [meters_to_deg_offsets] and
    [cross_path_coords] over IEEE binary64 numbers (Rocq's primitive floats),
    with the Python exceptions those functions can raise made explicit.

    Three things come from outside the repository and are kept as they are
    there: the C library's [cos] is a parameter; the builtin [sum] is given
    with both of its float accumulations; list lengths are [Py_ssize_t].

    The rest of the script is embedded as well: the coordinate parser of
    [parse_first_polygon_coords] over strings of code points, [rand_kml_abgr],
    the output path of [write_cross_linestring] ([os.path] on a POSIX system)
    and the run of [main] as a trace of events.  There the builtin [float],
    [random.randint], [str] on floats and exceptions, the XML lookups and the
    saving of the document are parameters. *)

From Stdlib Require Import Ascii String.
From Stdlib Require Import ZArith List Bool Lia Floats Uint63.
Import ListNotations.

Local Open Scope float_scope.

(** ** Python runtime fragments *)

(** The exceptions the three functions can raise. *)
Inductive exn : Set :=
| IndexError
| ZeroDivisionError
| ValueError.

Inductive result (A : Type) : Type :=
| Ok (a : A)
| Raise (e : exn).

Arguments Ok {A} a.
Arguments Raise {A} e.

Definition bind {A B : Type} (r : result A) (k : A -> result B) : result B :=
  match r with
  | Ok a => k a
  | Raise e => Raise e
  end.

Notation "x <- r ;; k" := (bind r (fun x => k))
  (at level 61, r at next level, right associativity).

(** A Python float is a heap object: [ob_id] is its identity (what [is]
    compares), [ob_fval] the binary64 value it carries. *)
Record pyfloat : Set := PyFloat { ob_id : positive; ob_fval : float }.

(** A vertex is a 2-tuple [(lon, lat)] of float objects. *)
Definition vertex : Set := (pyfloat * pyfloat)%type.

Definition vx (p : vertex) : float := ob_fval (fst p).
Definition vy (p : vertex) : float := ob_fval (snd p).

(** [PyObject_RichCompareBool(a, b, Py_EQ)]: identical objects are equal
    without being compared; otherwise the IEEE comparison decides. *)
Definition item_eq (a b : pyfloat) : bool :=
  Pos.eqb (ob_id a) (ob_id b) || (ob_fval a =? ob_fval b).

(** [==] on two 2-tuples: every pair of items must pass [item_eq]. *)
Definition tuple_eq (p q : vertex) : bool :=
  item_eq (fst p) (fst q) && item_eq (snd p) (snd q).

(** [seq[i]] for [0 <= i]. *)
Definition getitem {A : Type} (l : list A) (i : nat) : result A :=
  match nth_error l i with
  | Some a => Ok a
  | None => Raise IndexError
  end.

(** [i % n] on non-negative ints. *)
Definition py_mod (i n : nat) : result nat :=
  match n with
  | O => Raise ZeroDivisionError
  | S _ => Ok (i mod n)%nat
  end.

(** [float(n)] for a length [n]; lengths are [Py_ssize_t], below [2^63]. *)
Definition float_of_len (n : nat) : float := of_uint63 (of_Z (Z.of_nat n)).

Definition PY_SSIZE_T_MAX : Z := 2 ^ 63 - 1.

(** [a / b] on floats: a zero divisor raises. *)
Definition py_div (a b : float) : result float :=
  if b =? 0 then Raise ZeroDivisionError else Ok (a / b).

(** The value [sum] returns: the int [0] it starts from, or a float. *)
Inductive pynum : Set :=
| PyInt (z : Z)
| PyFlt (f : float).

(** How the builtin [sum] accumulates floats: one rounded addition per item
    up to CPython 3.11, Neumaier's compensated sum from CPython 3.12 on. *)
Inductive sum_algorithm : Set :=
| PlainSum
| NeumaierSum.

(** One step of the compensated sum: [hi] is the running sum, [lo] the
    running compensation. *)
Definition cs_add (total : float * float) (x : float) : float * float :=
  let (hi, lo) := total in
  let t := hi + x in
  if abs x <=? abs hi then (t, lo + ((hi - t) + x))
  else (t, lo + ((x - t) + hi)).

(** The end of the compensated sum: the compensation is added unless it is
    zero, infinite or NaN. *)
Definition cs_to_double (total : float * float) : float :=
  let (hi, lo) := total in
  if negb (lo =? 0) && is_finite lo then hi + lo else hi.

(** The float loop of [sum], entered with the float [f] accumulated so far. *)
Definition sum_floats (alg : sum_algorithm) (f : float) (xs : list float)
  : float :=
  match alg with
  | PlainSum => fold_left PrimFloat.add xs f
  | NeumaierSum => cs_to_double (fold_left cs_add xs (f, 0))
  end.

(** [sum(xs)] for a list of floats: the int [0] it starts from when [xs] is
    empty; otherwise [0 + x0] is a float and the float loop takes over. *)
Definition py_sum (alg : sum_algorithm) (xs : list float) : pynum :=
  match xs with
  | [] => PyInt 0
  | x0 :: rest => PyFlt (sum_floats alg (of_uint63 (of_Z 0) + x0) rest)
  end.

(** [s / n] with [n] an int: int/int raises on [n = 0] (and is the quotient
    of the converted operands, below [2^53]); float/int converts [n] and
    divides as floats. *)
Definition py_truediv (s : pynum) (n : nat) : result float :=
  match s with
  | PyInt z =>
      match n with
      | O => Raise ZeroDivisionError
      | S _ => Ok (of_uint63 (of_Z z) / float_of_len n)
      end
  | PyFlt f => py_div f (float_of_len n)
  end.

(** [max(a, b)]: [a] is kept unless [b > a]. *)
Definition py_max (a b : float) : float := if a <? b then b else a.

(** ** polygon_centroid *)

(** The literal [1e-12] (nearest binary64). *)
Definition eps : float := 0x1.19799812dea11p-40.

(** The accumulators [A], [Cx], [Cy]. *)
Record acc : Set := Acc { acc_A : float; acc_Cx : float; acc_Cy : float }.

(** One iteration of the [for i in range(n)] loop. *)
Definition loop_body (pts : list vertex) (n : nat) (s : acc) (i : nat)
  : result acc :=
  p1 <- getitem pts i ;;
  j <- py_mod (i + 1) n ;;
  p2 <- getitem pts j ;;
  let x1 := vx p1 in let y1 := vy p1 in
  let x2 := vx p2 in let y2 := vy p2 in
  let cross := x1 * y2 - x2 * y1 in
  Ok (Acc (acc_A s + cross)
          (acc_Cx s + (x1 + x2) * cross)
          (acc_Cy s + (y1 + y2) * cross)).

(** Running the loop over a list of indices. *)
Fixpoint for_range (pts : list vertex) (n : nat) (idx : list nat) (s : acc)
  : result acc :=
  match idx with
  | [] => Ok s
  | i :: idx' => s' <- loop_body pts n s i ;; for_range pts n idx' s'
  end.

(** Lines 47-50: drop a trailing duplicate of the first vertex. *)
Definition normalize (coords : list vertex) : result (list vertex) :=
  match coords with
  | [] => Raise IndexError
  | c0 :: _ =>
      if tuple_eq c0 (last coords c0) then Ok (removelast coords)
      else Ok coords
  end.

(** Lines 51-69 on the normalized points. *)
Definition centroid_of (alg : sum_algorithm) (pts : list vertex)
  : result (float * float) :=
  let n := length pts in
  s <- for_range pts n (seq 0 n) (Acc 0 0 0) ;;
  let A := acc_A s * 0.5 in
  if abs A <? eps then
    let sx := py_sum alg (map vx pts) in
    let sy := py_sum alg (map vy pts) in
    mx <- py_truediv sx n ;;
    my <- py_truediv sy n ;;
    Ok (mx, my)
  else
    cx <- py_div (acc_Cx s) (6 * A) ;;
    cy <- py_div (acc_Cy s) (6 * A) ;;
    Ok (cx, cy).

Definition polygon_centroid (alg : sum_algorithm) (coords : list vertex)
  : result (float * float) :=
  pts <- normalize coords ;; centroid_of alg pts.

(** ** meters_to_deg_offsets and cross_path_coords *)

(** [math.radians]: [x * (pi / 180)]. *)
Definition Py_MATH_PI : float := 0x1.921fb54442d18p+1.
Definition degToRad : float := Py_MATH_PI / 180.
Definition math_radians (x : float) : float := x * degToRad.

Section Libm.

(** The C library's [cos], which the repository does not define. *)
Variable libm_cos : float -> float.

(** [math.cos]: the wrapper raises a domain error when the C function
    turns a non-NaN argument into NaN or a finite one into an infinity. *)
Definition math_cos (x : float) : result float :=
  let r := libm_cos x in
  if is_nan r && negb (is_nan x) then Raise ValueError
  else if is_infinity r && is_finite x then Raise ValueError
  else Ok r.

Definition meters_to_deg_offsets (lat_deg east_m north_m : float)
  : result (float * float) :=
  let lat_rad := math_radians lat_deg in
  dlat <- py_div north_m 111320 ;;
  c <- math_cos lat_rad ;;
  dlon <- py_div east_m (111320 * py_max c eps) ;;
  Ok (dlon, dlat).

Definition cross_path_coords (lon lat arm_m : float)
  : result (list (float * float)) :=
  d <- meters_to_deg_offsets lat arm_m arm_m ;;
  let dlon_east := fst d in
  let dlat_north := snd d in
  let north := (lon, lat + dlat_north) in
  let south := (lon, lat - dlat_north) in
  let east := (lon + dlon_east, lat) in
  let west := (lon - dlon_east, lat) in
  let seq := [(lon, lat); north; south; (lon, lat); west; east; (lon, lat)] in
  Ok (map (fun p => (fst p, snd p)) seq).

End Libm.

(** ** The quantities the specification names

    Sums are taken in index order starting from [0.0], in binary64. *)

(** [P_i] with the index taken modulo [n]. *)
Definition cyc (pts : list vertex) (i : nat) : vertex :=
  nth (i mod length pts) pts (PyFloat 1 0, PyFloat 1 0).

(** [cross_i = x_i*y_{i+1} - x_{i+1}*y_i]. *)
Definition cross_i (pts : list vertex) (i : nat) : float :=
  vx (cyc pts i) * vy (cyc pts (i + 1)) - vx (cyc pts (i + 1)) * vy (cyc pts i).

(** [f 0 + f 1 + ... + f (n-1)]. *)
Definition fsum (n : nat) (f : nat -> float) : float :=
  fold_left (fun s i => s + f i) (seq 0 n) 0.

(** [A = 0.5 * sum_i cross_i]. *)
Definition signed_area (pts : list vertex) : float :=
  0.5 * fsum (length pts) (cross_i pts).

(** [Cx = sum_i (x_i + x_{i+1}) * cross_i]. *)
Definition moment_x (pts : list vertex) : float :=
  fsum (length pts)
       (fun i => (vx (cyc pts i) + vx (cyc pts (i + 1))) * cross_i pts i).

(** [Cy = sum_i (y_i + y_{i+1}) * cross_i]. *)
Definition moment_y (pts : list vertex) : float :=
  fsum (length pts)
       (fun i => (vy (cyc pts i) + vy (cyc pts (i + 1))) * cross_i pts i).

(** Unweighted arithmetic mean of a non-empty list of numbers: their sum, as
    [sum] accumulates it from [0], over their count. *)
Definition total (alg : sum_algorithm) (xs : list float) : float :=
  match xs with
  | [] => 0
  | x0 :: rest => sum_floats alg (0 + x0) rest
  end.

Definition mean (alg : sum_algorithm) (xs : list float) : float :=
  total alg xs / float_of_len (length xs).

(** The effect of one loop iteration on the accumulators, in terms of the
    quantities above. *)
Definition loop_step (pts : list vertex) (s : acc) (i : nat) : acc :=
  Acc (acc_A s + cross_i pts i)
      (acc_Cx s + (vx (cyc pts i) + vx (cyc pts (i + 1))) * cross_i pts i)
      (acc_Cy s + (vy (cyc pts i) + vy (cyc pts (i + 1))) * cross_i pts i).

(** Building vertices from values, with fresh object identities. *)
Definition mkv (i : positive) (x y : float) : vertex :=
  (PyFloat (2 * i) x, PyFloat (2 * i + 1) y).

Definition square : list vertex :=
  [mkv 1 0 0; mkv 2 2 0; mkv 3 2 2; mkv 4 0 2].

Definition collinear : list vertex := [mkv 1 0 0; mkv 2 1 1; mkv 3 2 2].

(** A square of side [0.0001] degrees with its corner at (100, 50). *)
Definition far_square : list vertex :=
  [mkv 1 100 50;
   mkv 2 0x1.90001a36e2eb2p+6 50;
   mkv 3 0x1.90001a36e2eb2p+6 0x1.9000346dc5d64p+5;
   mkv 4 100 0x1.9000346dc5d64p+5].

(** What C99 asks of [cos]: a finite argument has a finite cosine. *)
Definition cos_keeps_finite (f : float -> float) : Prop :=
  forall x, is_finite x = true -> is_finite (f x) = true.

(** A stand-in for the C library's [cos] to run the examples with: its
    values at the radians of 0, 2, 20 and 60 degrees, [1] at the other finite
    arguments (which no example uses), NaN at infinities and NaN. *)
Definition cos_table (x : float) : float :=
  if is_finite x then
    if x =? 0 then 1
    else if x =? math_radians 2 then 0x1.ffb0278bf0567p-1
    else if x =? math_radians 20 then 0x1.e11f642522d1cp-1
    else if x =? math_radians 60 then 0x1.0000000000001p-1
    else 1
  else nan.

(** ** Classes of binary64 values used in the proofs *)

Definition nonzero (x : spec_float) : Prop :=
  match x with
  | S754_zero _ => False
  | _ => True
  end.

(** Magnitude of a finite number: position of its leading bit. *)
Definition mag (x : spec_float) : Z :=
  match x with
  | S754_finite _ m e => Zpos (digits2_pos m) + e
  | _ => 0%Z
  end.

(** Numbers that are NaN, infinite, or finite with magnitude at least [k]. *)
Definition above (k : Z) (x : spec_float) : Prop :=
  match x with
  | S754_zero _ => False
  | S754_finite _ _ _ => (k <= mag x)%Z
  | _ => True
  end.

Definition finite_or_zero (x : spec_float) : Prop :=
  match x with
  | S754_zero _ | S754_finite _ _ _ => True
  | _ => False
  end.

(** [R'] is what a subtraction gives once its operands are swapped, when
    the subtraction itself gives [R]. *)
Definition swapped (R R' : spec_float) : Prop :=
  R' = SFopp R \/ (exists s s', R = S754_zero s /\ R' = S754_zero s').

(** The longitude divisors at 0 and 60 degrees: [111320.0] and
    [111320.0 * 0.5000000000000001]. *)
Definition D0 : spec_float := S754_finite false 7649852150251520 (-36).
Definition D60 : spec_float := S754_finite false 7649852150251522 (-37).

(** [cos_table] extended past the pole: at latitude 100 the cosine is
    negative. *)
Definition cos_past_pole (x : float) : float :=
  if x =? math_radians 100 then -0x1.63a1a7e0b7388p-3 else cos_table x.

(** ** Strings and the coordinate parser *)

(** A Python [str]: its code points. *)
Definition pystr : Set := list N.

(** An ASCII literal of the source. *)
Definition lit (s : string) : pystr :=
  map N_of_ascii (list_ascii_of_string s).

(** [str.isspace] on one character: the whitespace [strip] and [split]
    look for. *)
Definition isspace (c : N) : bool :=
  ((9 <=? c) && (c <=? 13) || (28 <=? c) && (c <=? 32)
   || (c =? 0x85) || (c =? 0xA0) || (c =? 0x1680)
   || (0x2000 <=? c) && (c <=? 0x200A)
   || (c =? 0x2028) || (c =? 0x2029) || (c =? 0x202F) || (c =? 0x205F)
   || (c =? 0x3000))%N.

Fixpoint lstrip (s : pystr) : pystr :=
  match s with
  | c :: r => if isspace c then lstrip r else s
  | [] => []
  end.

Definition rstrip (s : pystr) : pystr := rev (lstrip (rev s)).

(** [s.strip()]. *)
Definition strip (s : pystr) : pystr := rstrip (lstrip s).

(** [s.replace(old, new)] for one-character [old] and [new]. *)
Definition replace (old new : N) (s : pystr) : pystr :=
  map (fun c => if (c =? old)%N then new else c) s.

(** [s.split()]: the maximal runs of non-whitespace; [cur] is the run being
    read. *)
Fixpoint split_runs (cur : pystr) (s : pystr) : list pystr :=
  match s with
  | [] => match cur with [] => [] | _ => [cur] end
  | c :: r =>
      if isspace c then
        match cur with
        | [] => split_runs [] r
        | _ => cur :: split_runs [] r
        end
      else split_runs (cur ++ [c]) r
  end.

Definition split (s : pystr) : list pystr := split_runs [] s.

(** [s.split(sep)] for a one-character [sep]: the pieces between the
    separators, empty ones included. *)
Fixpoint split_pieces (sep : N) (cur : pystr) (s : pystr) : list pystr :=
  match s with
  | [] => [cur]
  | c :: r =>
      if (c =? sep)%N then cur :: split_pieces sep [] r
      else split_pieces sep (cur ++ [c]) r
  end.

Definition split_at (sep : N) (s : pystr) : list pystr := split_pieces sep [] s.

Definition comma : N := 44.
Definition newline : N := 10.
Definition tab : N := 9.
Definition space : N := 32.

Section Parser.

(** The builtin [float] on a string: [None] stands for [ValueError]. *)
Variable py_float : pystr -> option float.

(** Lines 33-40, one token: a pair of fresh float objects is appended when
    the token has at least two comma-separated parts and the first two
    convert; otherwise [coords] is left as it is. *)
Definition parse_token (coords : list vertex) (token : pystr) : list vertex :=
  match split_at comma token with
  | p0 :: p1 :: _ =>
      match py_float p0 with
      | Some lon =>
          match py_float p1 with
          | Some lat => coords ++ [mkv (Pos.of_succ_nat (length coords)) lon lat]
          | None => coords
          end
      | None => coords
      end
  | _ => coords
  end.

(** Lines 30-44 on the text of the coordinates element: [None] when fewer
    than 3 vertices were read. *)
Definition coords_of_text (text : pystr) : option (list vertex) :=
  let coords_text := strip text in
  let tokens := split (replace tab space (replace newline space coords_text)) in
  let coords := fold_left parse_token tokens [] in
  if (length coords <? 3)%nat then None else Some coords.

(** What the ElementTree lookups of lines 10-25 give for a document: whether
    a Polygon exists, the text of the name of the first Placemark holding a
    Polygon, the text of the outer ring's coordinates element and the text of
    the first coordinates element ([None] when the element or its text is
    missing). *)
Record kml_doc : Set := {
  doc_polygon : bool;
  doc_name : option pystr;
  doc_ring_coords : option pystr;
  doc_any_coords : option pystr
}.

(** The three shapes of the returned triple: [(None, None, None)],
    [(name, None, root)] and [(name, coords, root)]. *)
Inductive parsed : Set :=
| NoPolygon
| NoCoords (name_text : pystr)
| Parsed (name_text : pystr) (coords : list vertex).

(** [el is None or not (el.text and el.text.strip())], negated. *)
Definition has_text (t : option pystr) : bool :=
  match t with
  | Some s =>
      match s with [] => false | _ => match strip s with [] => false | _ => true end end
  | None => false
  end.

Definition parse_first_polygon_coords (doc : kml_doc) : parsed :=
  if doc_polygon doc then
    let name_text :=
      match doc_name doc with
      | Some (c :: t) => strip (c :: t)
      | _ => []
      end in
    let coords_el :=
      if has_text (doc_ring_coords doc) then doc_ring_coords doc
      else doc_any_coords doc in
    if has_text coords_el then
      match coords_el with
      | Some text =>
          match coords_of_text text with
          | Some coords => Parsed name_text coords
          | None => NoCoords name_text
          end
      | None => NoCoords name_text
      end
    else NoCoords name_text
  else NoPolygon.

End Parser.

(** ** Words to state the parser's properties with *)

(** Tokens written one after the other, each preceded by its separator. *)
Fixpoint spaced (items : list (pystr * pystr)) : pystr :=
  match items with
  | [] => []
  | (sep, tok) :: r => sep ++ tok ++ spaced r
  end.

Definition blank (s : pystr) : Prop := Forall (fun c => isspace c = true) s.

(** A non-empty run of characters that are not whitespace. *)
Definition word (s : pystr) : Prop :=
  s <> [] /\ Forall (fun c => isspace c = false) s.

(** The token [a,b] or [a,b,rest]. *)
Definition token_of (a b : pystr) (rest : option pystr) : pystr :=
  a ++ comma :: b ++ match rest with Some r => comma :: r | None => [] end.

Definition comma_free (s : pystr) : Prop := Forall (fun c => c <> comma) s.

(** The coordinate values of a list of vertices. *)
Definition vals (coords : list vertex) : list (float * float) :=
  map (fun p => (vx p, vy p)) coords.

(** The token [t] is a written vertex with the value [v]: a word
    [lon,lat] or [lon,lat,rest] whose first two parts [float] converts to
    the components of [v]. *)
Definition reads (py_float : pystr -> option float) (t : pystr)
  (v : float * float) : Prop :=
  word t
  /\ exists a b rest,
       t = token_of a b rest
       /\ comma_free a /\ comma_free b
       /\ py_float a = Some (fst v) /\ py_float b = Some (snd v).

(** ** rand_kml_abgr *)

(** The character of a hexadecimal digit [d < 16], in lower case. *)
Definition hex_digit (d : N) : N := if (d <? 10)%N then (48 + d)%N else (87 + d)%N.

(** The hexadecimal digits of [n], most significant first. *)
Fixpoint hex_digits (fuel : nat) (n : N) : pystr :=
  match fuel with
  | O => []
  | S fuel' =>
      if (n <? 16)%N then [hex_digit n]
      else hex_digits fuel' (n / 16) ++ [hex_digit (n mod 16)]
  end.

(** [format(n, "x")] for an int [n >= 0]. *)
Definition format_x (n : N) : pystr := hex_digits (S (N.to_nat (N.log2 n))) n.

(** [format(n, "02x")] for an int [n >= 0]: zeros on the left up to width 2. *)
Definition format_02x (n : N) : pystr :=
  repeat 48%N (2 - length (format_x n)) ++ format_x n.

Section Random.

(** The generator behind [random.randint]: its state, and a draw from
    [lo..hi] that returns the number and the next state. *)
Variable rng : Type.
Variable randint : N -> N -> rng -> N * rng.

Definition rand_kml_abgr (s : rng) : pystr * rng :=
  let (r, s1) := randint 0 255 s in
  let (g, s2) := randint 0 255 s1 in
  let (b, s3) := randint 0 255 s2 in
  let a := 255%N in
  (format_02x a ++ format_02x b ++ format_02x g ++ format_02x r, s3).

End Random.

(** What [random.randint] promises. *)
Definition randint_in_range {rng : Type} (randint : N -> N -> rng -> N * rng)
  : Prop :=
  forall lo hi s, (lo <= hi)%N -> (lo <= fst (randint lo hi s) <= hi)%N.

(** A stand-in generator to run the examples with: a linear congruential
    sequence. *)
Definition lcg (lo hi : N) (s : N) : N * N :=
  ((lo + s mod (hi - lo + 1))%N, ((s * 1103515245 + 12345) mod 2147483648)%N).

(** Reading a colour back: the value of a lower-case hexadecimal digit, and
    of a string of them. *)
Definition hex_value (c : N) : option N :=
  if ((48 <=? c) && (c <=? 57))%N then Some (c - 48)%N
  else if ((97 <=? c) && (c <=? 102))%N then Some (c - 87)%N
  else None.

Fixpoint of_hex (acc : N) (s : pystr) : option N :=
  match s with
  | [] => Some acc
  | c :: r =>
      match hex_value c with
      | Some d => of_hex (16 * acc + d) r
      | None => None
      end
  end.

(** The four channels of an [aabbggrr] colour. *)
Definition channels (c : pystr) : list (option N) :=
  [of_hex 0 (firstn 2 c); of_hex 0 (firstn 2 (skipn 2 c));
   of_hex 0 (firstn 2 (skipn 4 c)); of_hex 0 (skipn 6 c)].

(** ** The output path (os.path on a POSIX system) *)

Definition sep : N := 47.
Definition extsep : N := 46.

(** [s.rfind(c)]: the highest index of [c] in [s], or [-1]. *)
Fixpoint rfind_from (c : N) (s : pystr) (i : Z) : Z :=
  match s with
  | [] => (-1)%Z
  | x :: r =>
      let j := rfind_from c r (i + 1) in
      if (0 <=? j)%Z then j else if (x =? c)%N then i else (-1)%Z
  end.

Definition rfind (c : N) (s : pystr) : Z := rfind_from c s 0.

(** The slices [p[:i]] and [p[i:]] for [0 <= i]. *)
Definition upto (i : Z) (p : pystr) : pystr := firstn (Z.to_nat i) p.
Definition from (i : Z) (p : pystr) : pystr := skipn (Z.to_nat i) p.

Fixpoint str_eqb (s t : pystr) : bool :=
  match s, t with
  | [], [] => true
  | a :: s', b :: t' => (a =? b)%N && str_eqb s' t'
  | _, _ => false
  end.

(** [s.rstrip(c)] for a one-character [c]. *)
Fixpoint lstrip_char (c : N) (s : pystr) : pystr :=
  match s with
  | x :: r => if (x =? c)%N then lstrip_char c r else s
  | [] => []
  end.

Definition rstrip_char (c : N) (s : pystr) : pystr :=
  rev (lstrip_char c (rev s)).

(** [posixpath.basename]. *)
Definition basename (p : pystr) : pystr :=
  let i := (rfind sep p + 1)%Z in
  from i p.

(** [posixpath.dirname]. *)
Definition dirname (p : pystr) : pystr :=
  let i := (rfind sep p + 1)%Z in
  let head := upto i p in
  if negb (str_eqb head []) && negb (str_eqb head (repeat sep (length head)))
  then rstrip_char sep head
  else head.

(** The [while] loop of [genericpath._splitext] over
    [p[filenameIndex:dotIndex]]: is there a character that is not a dot? *)
Fixpoint has_non_dot (s : pystr) : bool :=
  match s with
  | [] => false
  | c :: r => if negb (c =? extsep)%N then true else has_non_dot r
  end.

(** [posixpath.splitext]. *)
Definition splitext (p : pystr) : pystr * pystr :=
  let sepIndex := rfind sep p in
  let dotIndex := rfind extsep p in
  if (sepIndex <? dotIndex)%Z then
    if has_non_dot (from (sepIndex + 1) (upto dotIndex p))
    then (upto dotIndex p, from dotIndex p)
    else (p, [])
  else (p, []).

Definition startswith (c : N) (s : pystr) : bool :=
  match s with
  | x :: _ => (x =? c)%N
  | [] => false
  end.

Definition endswith (c : N) (s : pystr) : bool := startswith c (rev s).

(** [posixpath.join(a, b)]. *)
Definition join (a b : pystr) : pystr :=
  if startswith sep b then b
  else if str_eqb a [] || endswith sep a then a ++ b
  else a ++ sep :: b.

(** Lines 121-122: where the cross is saved. *)
Definition out_path_of (kml_path : pystr) : pystr :=
  let title := fst (splitext (basename kml_path)) in
  join (dirname kml_path) (title ++ lit "_centroid.kml").

(** ** Words to state the path properties with *)

(** [s] has no character [c]. *)
Definition free (c : N) (s : pystr) : Prop := Forall (fun x => x <> c) s.

(** The three shapes of a directory name: empty, slashes only, or a name
    that does not end in a slash. *)
Definition dir_shape (d : pystr) : Prop :=
  d = []
  \/ (d <> [] /\ d = repeat sep (length d))
  \/ (d <> [] /\ endswith sep d = false).

(** The end of the output's file name. *)
Definition suffix : pystr := lit "_centroid.kml".

(** ** write_cross_linestring and main *)

Inductive altitudemode : Set :=
| clamptoground
| relativetoground
| absolute.

(** What the script sets on the line string it creates. *)
Record linestring : Set := LineString {
  ls_name : pystr;
  ls_coords : list (float * float);
  ls_altitudemode : altitudemode;
  ls_width : Z;
  ls_color : pystr
}.

(** What a run does to the outside: the prompt of [input], a line printed
    on standard output, a KML document saved under a path. *)
Inductive event : Set :=
| Prompt (text : pystr)
| Print (line : pystr)
| Save (path : pystr) (features : list linestring).

(** How [main] ends: it returns, it calls [sys.exit], or an exception
    leaves it. *)
Inductive status : Set :=
| Returned
| Exit (code : Z)
| Uncaught.

Definition is_save (e : event) : bool :=
  match e with
  | Save _ _ => true
  | _ => false
  end.

(** The line string the script builds around a centre. *)
Definition cross_feature (name : pystr) (coords : list (float * float))
  (color : pystr) : linestring :=
  LineString (match name with [] => lit "Centroid cross" | _ => name end)
             coords clamptoground 3 color.

Section Program.

(** The C library's [cos], the builtin [float], the variant of [sum]. *)
Variable libm_cos : float -> float.
Variable py_float : pystr -> option float.
Variable alg : sum_algorithm.

(** The random generator. *)
Variable rng : Type.
Variable randint : N -> N -> rng -> N * rng.

(** [str(x)] for a float and [str(e)] for an exception of the interpreter. *)
Variable float_repr : float -> pystr.
Variable exn_text : exn -> pystr.

(** [ET.parse] and the element lookups on a path: the document's lookups,
    or the text of the exception raised (no such file, malformed XML). *)
Variable et_parse : pystr -> kml_doc + pystr.

(** [kml_obj.save]: [None] when the file is written, the text of the
    exception otherwise. *)
Variable save_failure : pystr -> list linestring -> option pystr.

(** The state a run threads: the events so far and the generator. *)
Record world : Type := World { w_events : list event; w_rng : rng }.

(** A step returns a value or the text of the exception it raises. *)
Definition io (A : Type) : Type := world -> world * (A + pystr).

Definition io_ret {A : Type} (a : A) : io A := fun w => (w, inl a).

Definition io_raise {A : Type} (msg : pystr) : io A := fun w => (w, inr msg).

Definition io_bind {A B : Type} (m : io A) (k : A -> io B) : io B :=
  fun w =>
    match m w with
    | (w', inl a) => k a w'
    | (w', inr msg) => (w', inr msg)
    end.

Notation "x <~ m ;; k" := (io_bind m (fun x => k))
  (at level 61, m at next level, right associativity).

Definition emit (e : event) : io unit :=
  fun w => (World (w_events w ++ [e]) (w_rng w), inl tt).

Definition lift {A : Type} (r : result A) : io A :=
  match r with
  | Ok a => io_ret a
  | Raise e => io_raise (exn_text e)
  end.

Definition draw_colour : io pystr :=
  fun w =>
    let (c, s) := rand_kml_abgr rng randint (w_rng w) in
    (World (w_events w) s, inl c).

Definition save (path : pystr) (features : list linestring) : io unit :=
  match save_failure path features with
  | None => emit (Save path features)
  | Some msg => io_raise msg
  end.

Definition write_cross_linestring (kml_path name : pystr) (lat lon arm_m : float)
  : io unit :=
  coords <~ lift (cross_path_coords libm_cos lon lat arm_m) ;;
  let shown := match name with [] => lit "Centroid cross" | _ => name end in
  color <~ draw_colour ;;
  let ls := LineString shown coords clamptoground 3 color in
  let out_path := out_path_of kml_path in
  _ <~ save out_path [ls] ;;
  emit (Print (lit "Centroid cross saved as " ++ out_path)).

(** The body of the [try] of [main]. *)
Definition process (kml_path : pystr) : io unit :=
  doc <~ (fun w => (w, et_parse kml_path)) ;;
  match parse_first_polygon_coords py_float doc with
  | Parsed name (c :: rest) =>
      centroid <~ lift (polygon_centroid alg (c :: rest)) ;;
      let (lon, lat) := centroid in
      _ <~ emit (Print (float_repr lat ++ comma :: float_repr lon)) ;;
      write_cross_linestring kml_path name lat lon 10
  | _ =>
      io_raise (lit "The KML file does not contain a Polygon with coordinates.")
  end.

(** [main], given [sys.argv] and the line [input] would read ([None] at
    end of file). *)
Definition main (argv : list pystr) (stdin : option pystr) (w : world)
  : world * status :=
  let asked :=
    match argv with
    | [_; path] => (w, Some path)
    | _ =>
        (World (w_events w ++ [Prompt (lit "Enter kml location: ")]) (w_rng w),
         option_map strip stdin)
    end in
  match asked with
  | (w1, None) => (w1, Uncaught)
  | (w1, Some kml_path) =>
      match process kml_path w1 with
      | (w2, inl _) => (w2, Returned)
      | (w2, inr msg) =>
          (World (w_events w2 ++ [Print (lit "Error processing file: " ++ msg)])
                 (w_rng w2),
           Exit 1)
      end
  end.

End Program.

(** Stand-ins to run the examples with: [float] on strings of decimal
    digits, and [str] on the floats [1.0] and [2.0]. *)
Fixpoint digits_value (acc : Z) (s : pystr) : option Z :=
  match s with
  | [] => Some acc
  | c :: r =>
      if ((48 <=? c) && (c <=? 57))%N
      then digits_value (10 * acc + Z.of_N (c - 48)) r
      else None
  end.

Definition float_of_digits (s : pystr) : option float :=
  match s with
  | [] => None
  | _ => option_map (fun z => of_uint63 (of_Z z)) (digits_value 0 s)
  end.

Definition repr_table (x : float) : pystr :=
  if x =? 1 then lit "1.0" else if x =? 2 then lit "2.0" else lit "nan".

Definition exn_table (e : exn) : pystr :=
  match e with
  | IndexError => lit "list index out of range"
  | ZeroDivisionError => lit "division by zero"
  | ValueError => lit "math domain error"
  end.

(** A document whose outer ring is the square of side 4. *)
Definition square_doc : kml_doc :=
  {| doc_polygon := true;
     doc_name := Some (lit " Field ");
     doc_ring_coords :=
       Some (lit "0,0,0 4,0,0" ++ newline :: tab :: lit "4,4,0 0,4,0 0,0,0 ");
     doc_any_coords := None |}.

(** ** More classes of binary64 values *)

(** The values [x] with [0 <= x]: zeros of both signs, positive finite
    numbers and [+inf]. *)
Definition nonneg (x : spec_float) : Prop :=
  match x with
  | S754_zero _ | S754_finite false _ _ | S754_infinity false => True
  | _ => False
  end.

(** The values [x] with [0 < x]. *)
Definition pos (x : spec_float) : Prop :=
  match x with
  | S754_finite false _ _ | S754_infinity false => True
  | _ => False
  end.

(** The values that carry the sign [s]. *)
Definition signed (s : bool) (x : spec_float) : Prop :=
  match x with
  | S754_zero s' | S754_infinity s' | S754_finite s' _ _ => s' = s
  | S754_nan => False
  end.

(** * Binary64 rounding facts *)

Module B64.

Local Open Scope Z_scope.

Lemma digits2_size p : digits2_pos p = Pos.size p.
Proof. induction p; simpl; congruence. Qed.

Lemma digits2_log2 p : Zpos (digits2_pos p) = Z.log2 (Zpos p) + 1.
Proof.
  rewrite digits2_size. destruct p; simpl; try reflexivity;
    now rewrite Pos2Z.inj_succ.
Qed.

Lemma digits2_bounds p :
  2 ^ (Zpos (digits2_pos p) - 1) <= Zpos p < 2 ^ Zpos (digits2_pos p).
Proof.
  rewrite digits2_log2.
  replace (Z.log2 (Zpos p) + 1 - 1) with (Z.log2 (Zpos p)) by lia.
  apply Z.log2_spec. lia.
Qed.

Lemma shr_1_m r : 0 <= shr_m r -> shr_m (shr_1 r) = Z.div2 (shr_m r).
Proof.
  destruct r as [m b s]; simpl. intros H.
  destruct m as [|[p|p|]|p]; simpl; try reflexivity; lia.
Qed.

Lemma shr_iter_nonneg p : forall r,
  0 <= shr_m r -> 0 <= shr_m (iter_pos shr_1 p r).
Proof.
  assert (D : forall r, 0 <= shr_m r -> 0 <= shr_m (shr_1 r)).
  { intros r Hr. rewrite shr_1_m, Z.div2_spec by exact Hr.
    apply Z.shiftr_nonneg, Hr. }
  induction p; intros r Hr; cbn [iter_pos]; auto.
Qed.

Lemma shr_iter_m p : forall r,
  0 <= shr_m r -> shr_m (iter_pos shr_1 p r) = Z.shiftr (shr_m r) (Zpos p).
Proof.
  induction p; intros r Hr; cbn [iter_pos].
  - assert (H1 : 0 <= shr_m (shr_1 r)).
    { rewrite shr_1_m, Z.div2_spec by exact Hr. apply Z.shiftr_nonneg, Hr. }
    rewrite IHp by (apply shr_iter_nonneg, H1).
    rewrite IHp by exact H1.
    rewrite shr_1_m by exact Hr. rewrite Z.div2_spec.
    rewrite !Z.shiftr_shiftr by lia. f_equal. lia.
  - rewrite IHp by (apply shr_iter_nonneg, Hr). rewrite IHp by exact Hr.
    rewrite Z.shiftr_shiftr by lia. f_equal. lia.
  - rewrite shr_1_m by exact Hr. apply Z.div2_spec.
Qed.

Lemma shr_record_of_loc_m m l : shr_m (shr_record_of_loc m l) = m.
Proof. destruct l as [|[| |]]; reflexivity. Qed.

(** Mantissa and exponent after [shr_fexp] on a positive mantissa. *)
Lemma shr_fexp_pos m e l :
  emin < Zpos (digits2_pos m) + e ->
  exists m' r,
    shr_fexp prec emax (Zpos m) e l = (r, Z.max e (fexp prec emax (Zpos (digits2_pos m) + e)))
    /\ shr_m r = Zpos m'.
Proof.
  intros H. unfold shr_fexp, shr, Zdigits2.
  set (d := Zpos (digits2_pos m)) in *.
  destruct (fexp prec emax (d + e) - e) as [|n|n] eqn:En.
  - exists m, (shr_record_of_loc (Zpos m) l). split.
    + f_equal. lia.
    + apply shr_record_of_loc_m.
  - assert (Hn : Zpos n < d).
    { unfold fexp, SpecFloat.emin, prec, emax in *. lia. }
    pose proof (digits2_bounds m) as [Hlo _]. fold d in Hlo.
    assert (Hq : 0 < Z.shiftr (Zpos m) (Zpos n)).
    { rewrite Z.shiftr_div_pow2 by lia.
      apply Z.div_str_pos. split; [lia|].
      eapply Z.le_trans; [|exact Hlo].
      apply Z.pow_le_mono_r; lia. }
    destruct (Z.shiftr (Zpos m) (Zpos n)) as [|m'|m'] eqn:Es; try lia.
    exists m', (iter_pos shr_1 n (shr_record_of_loc (Zpos m) l)). split.
    + f_equal. lia.
    + rewrite shr_iter_m; rewrite shr_record_of_loc_m; [exact Es|lia].
  - exists m, (shr_record_of_loc (Zpos m) l). split.
    + f_equal. lia.
    + apply shr_record_of_loc_m.
Qed.

Lemma round_nearest_even_pos m l :
  exists m', round_nearest_even (Zpos m) l = Zpos m'.
Proof.
  destruct l as [|[| |]]; cbn [round_nearest_even].
  - now exists m.
  - destruct (Z.even (Zpos m)); [now exists m | now exists (m + 1)%positive].
  - now exists m.
  - now exists (m + 1)%positive.
Qed.

(** Rounding a positive mantissa above the underflow threshold never
    produces a zero (nor a NaN). *)
Lemma binary_round_aux_pos s m e l :
  emin < Zpos (digits2_pos m) + e ->
  (exists m' e', binary_round_aux prec emax s (Zpos m) e l = S754_finite s m' e')
  \/ binary_round_aux prec emax s (Zpos m) e l = S754_infinity s.
Proof.
  intros H. unfold binary_round_aux.
  destruct (shr_fexp_pos m e l H) as (m1 & r1 & E1 & M1).
  rewrite E1, M1.
  destruct (round_nearest_even_pos m1 (loc_of_shr_record r1)) as [m2 E2].
  rewrite E2.
  set (e1 := Z.max e (fexp prec emax (Zpos (digits2_pos m) + e))) in *.
  assert (H2 : emin < Zpos (digits2_pos m2) + e1).
  { assert (emin <= e1).
    { unfold e1, fexp, SpecFloat.emin, prec, emax. lia. }
    pose proof (Pos2Z.is_pos (digits2_pos m2)). lia. }
  destruct (shr_fexp_pos m2 e1 loc_Exact H2) as (m3 & r3 & E3 & M3).
  rewrite E3, M3.
  destruct (_ <=? _); eauto.
Qed.


Lemma digits2_mul p q :
  Zpos (digits2_pos p) + Zpos (digits2_pos q) - 1 <= Zpos (digits2_pos (p * q)).
Proof.
  rewrite !digits2_log2.
  assert (H : Z.log2 (Zpos p) + Z.log2 (Zpos q) <= Z.log2 (Zpos (p * q))).
  { apply Z.log2_le_pow2; [lia|].
    rewrite Z.pow_add_r by apply Z.log2_nonneg.
    rewrite Pos2Z.inj_mul.
    pose proof (Z.log2_spec (Zpos p) eq_refl) as [Hp _].
    pose proof (Z.log2_spec (Zpos q) eq_refl) as [Hq _].
    apply Z.mul_le_mono_nonneg; try assumption; apply Z.pow_nonneg; lia. }
  lia.
Qed.

Lemma SFmul_above s m e x :
  above (emin + 2 - (Zpos (digits2_pos m) + e)) x ->
  nonzero (SF64mul (S754_finite s m e) x).
Proof.
  destruct x as [sx|sx| |sx mx ex]; unfold above, mag, SF64mul, SFmul;
    try (intros; exact I); try tauto.
  intros H.
  destruct (binary_round_aux_pos (xorb s sx) (m * mx) (e + ex) loc_Exact)
    as [(m' & e' & E)|E].
  - pose proof (digits2_mul m mx). lia.
  - rewrite E. exact I.
  - rewrite E. exact I.
Qed.

Lemma SFeqb_zero x : nonzero x -> SFeqb x (S754_zero false) = false.
Proof. destruct x as [sx|[|]| |[|] mx ex]; simpl; tauto. Qed.

Lemma mul_nonzero k a s m e :
  Prim2SF k = S754_finite s m e ->
  above (emin + 2 - (Zpos (digits2_pos m) + e)) (Prim2SF a) ->
  (k * a =? 0)%float = false.
Proof.
  intros Hk Ha. rewrite FloatAxioms.eqb_spec, FloatAxioms.mul_spec, Hk.
  apply SFeqb_zero, SFmul_above, Ha.
Qed.

Lemma canonical_normal m e :
  bounded prec emax m e = true -> emin < e -> Zpos (digits2_pos m) = prec.
Proof.
  unfold bounded, canonical_mantissa, fexp, SpecFloat.emin, prec, emax.
  intros H He. apply andb_prop in H as [H _]. apply Z.eqb_eq in H. lia.
Qed.

Lemma not_lt_above x m e :
  valid_binary x = true ->
  emin < e ->
  SFltb x (S754_finite false m e) = false ->
  above (prec + e) x.
Proof.
  intros Vx He.
  destruct x as [sx|sx| |sx mx ex]; unfold above, mag, SFltb, SFcompare;
    try (intros; exact I).
  - discriminate.
  - destruct sx; [discriminate|].
    destruct (ex ?= e) eqn:C; try discriminate; intros _.
    + apply Z.compare_eq in C. subst ex.
      pose proof (canonical_normal _ _ Vx He). lia.
    + apply Z.compare_gt_iff in C.
      assert (He' : emin < ex) by lia.
      pose proof (canonical_normal _ _ Vx He'). lia.
Qed.

Lemma above_abs k x : above k (SFabs x) -> above k x.
Proof. destruct x; simpl; auto. Qed.

Lemma above_weaken k k' x : k' <= k -> above k x -> above k' x.
Proof. destruct x; unfold above; auto. lia. Qed.

Lemma Prim2SF_eps : Prim2SF eps = S754_finite false 4951760157141521 (-92).
Proof. reflexivity. Qed.

(** A float that is not below [1e-12] is NaN, infinite or has magnitude
    at least [-39]. *)
Lemma not_lt_eps a : (a <? eps)%float = false -> above (-39) (Prim2SF a).
Proof.
  rewrite FloatAxioms.ltb_spec, Prim2SF_eps. intros H.
  apply (not_lt_above _ _ _ (Prim2SF_valid a)) in H.
  - exact H.
  - reflexivity.
Qed.

Lemma abs_not_lt_eps a :
  (abs a <? eps)%float = false -> above (-39) (Prim2SF a).
Proof.
  intros H. apply not_lt_eps in H. rewrite FloatAxioms.abs_spec in H.
  apply above_abs, H.
Qed.

(** [SFcompare] is antisymmetric. *)
Lemma SFcompare_antisym x y :
  SFcompare y x = option_map CompOpp (SFcompare x y).
Proof.
  destruct x as [sx|sx| |sx mx ex], y as [sy|sy| |sy my ey];
    try reflexivity;
    try (destruct sx; reflexivity); try (destruct sy; reflexivity);
    try (destruct sx, sy; reflexivity).
  pose proof (Pos.compare_cont_antisym mx my Eq) as P.
  change (CompOpp Eq) with Eq in P.
  unfold SFcompare, option_map.
  destruct sx, sy; try reflexivity;
    rewrite (Z.compare_antisym ex ey), <- P;
    destruct (ex ?= ey); cbn [CompOpp]; rewrite ?CompOpp_involutive;
    reflexivity.
Qed.

Lemma leb_not_ltb a b : (a <=? b)%float = true -> (b <? a)%float = false.
Proof.
  rewrite FloatAxioms.leb_spec, FloatAxioms.ltb_spec.
  unfold SFleb, SFltb. rewrite (SFcompare_antisym (Prim2SF a) (Prim2SF b)).
  destruct (SFcompare (Prim2SF a) (Prim2SF b)) as [[| |]|]; simpl; congruence.
Qed.

(** Binary64 multiplication is commutative. *)
Lemma SFmul_comm x y : SF64mul x y = SF64mul y x.
Proof.
  destruct x as [sx|sx| |sx mx ex], y as [sy|sy| |sy my ey];
    unfold SF64mul, SFmul; try reflexivity;
    try (now rewrite xorb_comm).
  now rewrite xorb_comm, Pos.mul_comm, Z.add_comm.
Qed.

Lemma mul_comm a b : (a * b)%float = (b * a)%float.
Proof. apply Prim2SF_inj. rewrite !FloatAxioms.mul_spec. apply SFmul_comm. Qed.

(** The guard [abs(A) < 1e-12] keeps the divisor [6.0 * A] away from zero. *)
Lemma six_A_nonzero a :
  (abs a <? eps)%float = false -> (6 * a =? 0)%float = false.
Proof.
  intros H. apply abs_not_lt_eps in H.
  apply (mul_nonzero 6 a false 6755399441055744 (-50)); [reflexivity|].
  apply (above_weaken (-39)); [now vm_compute | exact H].
Qed.

(** The clamp [max(cos, 1e-12)] keeps the longitude divisor away from zero. *)
Lemma lon_divisor_nonzero c :
  (111320 * py_max c eps =? 0)%float = false.
Proof.
  unfold py_max. destruct (c <? eps)%float eqn:H; [reflexivity|].
  apply not_lt_eps in H.
  apply (mul_nonzero 111320 c false 7649852150251520 (-36)); [reflexivity|].
  apply (above_weaken (-39)); [now vm_compute | exact H].
Qed.

Lemma shl_align_digits m e e' :
  emin <= e' -> emin <= e ->
  emin < Zpos (digits2_pos (fst (shl_align m e e'))) + snd (shl_align m e e').
Proof.
  intros H H'. unfold shl_align.
  destruct (e' - e); cbn [fst snd];
    pose proof (Pos2Z.is_pos (digits2_pos m));
    try pose proof (Pos2Z.is_pos (digits2_pos (Pos.iter xO m p))); lia.
Qed.

(** Converting a length in [1 .. 2^63-1] never gives [0.0]. *)
Lemma float_of_len_nonzero n :
  (0 < n)%nat -> Z.of_nat n <= PY_SSIZE_T_MAX ->
  (float_of_len n =? 0)%float = false.
Proof.
  intros Hn Hmax. unfold float_of_len.
  rewrite FloatAxioms.eqb_spec, FloatAxioms.of_uint63_spec, of_Z_spec.
  rewrite Z.mod_small by (unfold PY_SSIZE_T_MAX in Hmax; change wB with (2 ^ 63); lia).
  apply SFeqb_zero.
  destruct (Z.of_nat n) as [|p|p] eqn:E; try lia.
  unfold binary_normalize, binary_round.
  pose proof (shl_align_digits p 0 (fexp prec emax (Zpos (digits2_pos p) + 0))) as D.
  destruct (shl_align p 0 _) as [mz ez]. cbn [fst snd] in D.
  destruct (binary_round_aux_pos false mz ez loc_Exact) as [(m' & e' & R)|R].
  - apply D; unfold fexp, SpecFloat.emin, prec, emax; lia.
  - rewrite R. exact I.
  - rewrite R. exact I.
Qed.

Lemma shr_fexp_nonneg m e l :
  0 <= m -> 0 <= shr_m (fst (shr_fexp prec emax m e l)).
Proof.
  intros H. unfold shr_fexp, shr.
  destruct (fexp prec emax (Zdigits2 m + e) - e); cbn [fst];
    rewrite ?shr_record_of_loc_m; try exact H.
  apply shr_iter_nonneg. now rewrite shr_record_of_loc_m.
Qed.

Lemma round_nearest_even_nonneg m l : 0 <= m -> 0 <= round_nearest_even m l.
Proof.
  intros H. destruct l as [|[| |]]; cbn [round_nearest_even]; try lia.
  destruct (Z.even m); lia.
Qed.

(** Rounding a non-negative mantissa never produces a NaN. *)
Lemma binary_round_aux_not_nan s m e l :
  0 <= m -> binary_round_aux prec emax s m e l <> S754_nan.
Proof.
  intros H. unfold binary_round_aux.
  pose proof (shr_fexp_nonneg m e l H) as H1.
  destruct (shr_fexp prec emax m e l) as [r1 e1]. cbn [fst] in H1.
  pose proof (shr_fexp_nonneg _ e1 loc_Exact
                (round_nearest_even_nonneg _ (loc_of_shr_record r1) H1)) as H2.
  destruct (shr_fexp prec emax _ e1 loc_Exact) as [r2 e2]. cbn [fst] in H2.
  destruct (shr_m r2); try discriminate; [|lia].
  destruct (e2 <=? emax - prec); discriminate.
Qed.

Lemma SFdiv_not_nan x s m e :
  x <> S754_nan -> SF64div x (S754_finite s m e) <> S754_nan.
Proof.
  destruct x as [sx|sx| |sx mx ex]; unfold SF64div, SFdiv;
    try discriminate; try congruence.
  intros _. unfold SFdiv_core_binary.
  set (m' := match _ - _ - _ with Z0 => Zpos mx | Zpos _ => Z.shiftl _ _ | Zneg _ => 0 end).
  assert (Hm' : 0 <= m').
  { unfold m'. destruct (_ - _ - _); try lia. apply Z.shiftl_nonneg. lia. }
  pose proof (Z.div_pos m' (Zpos m) Hm' eq_refl) as Hq.
  unfold Z.div in Hq. destruct (Z.div_eucl m' (Zpos m)) as [q r].
  apply binary_round_aux_not_nan, Hq.
Qed.

Lemma SFeqb_refl x : x <> S754_nan -> SFeqb x x = true.
Proof.
  destruct x as [s|s| |s m e]; unfold SFeqb, SFcompare; try congruence;
    try (destruct s; reflexivity).
  intros _. rewrite Z.compare_refl, Pos.compare_cont_refl. now destruct s.
Qed.

Lemma SFeqb_true x y :
  SFeqb x y = true ->
  (x = y /\ x <> S754_nan) \/ (exists s s', x = S754_zero s /\ y = S754_zero s').
Proof.
  destruct x as [sx|sx| |sx mx ex], y as [sy|sy| |sy my ey];
    unfold SFeqb, SFcompare; try discriminate;
    try (destruct sx; discriminate); try (destruct sy; discriminate).
  - intros _. right. eauto.
  - destruct sx, sy; try discriminate; intros _; left; split; congruence.
  - intros H. left. split; [|discriminate].
    destruct sx, sy; try discriminate;
      destruct (ex ?= ey) eqn:C; try discriminate;
      apply Z.compare_eq in C; subst ey;
      destruct (Pos.compare_cont Eq mx my) eqn:P; try discriminate;
      apply Pos.compare_eq in P; now subst my.
Qed.

(** Dividing equal numbers by the same finite divisor gives equal quotients
    (for Python's [==]). *)
Lemma div_eqb_compat a b k s m e :
  Prim2SF k = S754_finite s m e ->
  (a =? b)%float = true -> (a / k =? b / k)%float = true.
Proof.
  intros Hk. rewrite !FloatAxioms.eqb_spec, !FloatAxioms.div_spec, Hk.
  intros H. apply SFeqb_true in H as [[<- Hn]|(sa & sb & -> & ->)].
  - apply SFeqb_refl, SFdiv_not_nan, Hn.
  - reflexivity.
Qed.

Lemma is_finite_spec a : is_finite a = true -> finite_or_zero (Prim2SF a).
Proof.
  unfold is_finite, is_nan, is_infinity.
  rewrite !FloatAxioms.eqb_spec, FloatAxioms.abs_spec.
  change (Prim2SF infinity) with (S754_infinity false).
  destruct (Prim2SF a) as [s|s| |s m e]; try (intros; exact I);
    try destruct s; discriminate.
Qed.

Lemma binary_round_opp s m e :
  binary_round prec emax (negb s) m e = SFopp (binary_round prec emax s m e).
Proof.
  unfold binary_round. destruct (shl_align m e _) as [mz ez].
  unfold binary_round_aux.
  destruct (shr_fexp prec emax (Zpos mz) ez loc_Exact) as [r1 e1].
  destruct (shr_fexp prec emax _ e1 loc_Exact) as [r2 e2].
  destruct (shr_m r2); try reflexivity.
  destruct (e2 <=? emax - prec); reflexivity.
Qed.

Lemma binary_normalize_swapped z e :
  swapped (binary_normalize prec emax z e false)
          (binary_normalize prec emax (- z) e false).
Proof.
  destruct z as [|p|p]; cbn [Z.opp binary_normalize].
  - right. now exists false, false.
  - left. apply (binary_round_opp false).
  - left. change false with (negb true) at 1.
    rewrite (binary_round_opp true). now destruct (binary_round prec emax true p e).
Qed.

Lemma SFsub_swapped x y :
  finite_or_zero (SF64sub x y) -> swapped (SF64sub x y) (SF64sub y x).
Proof.
  destruct x as [sx|sx| |sx mx ex], y as [sy|sy| |sy my ey];
    unfold SF64sub, SFsub, finite_or_zero; try tauto;
    try (destruct sx, sy; tauto).
  - intros _. right. destruct sx, sy; eauto.
  - intros _. left. cbn [SFopp]. now rewrite negb_involutive.
  - intros _. left. reflexivity.
  - intros _. rewrite (Z.min_comm ey ex).
    set (zx := cond_Zopp sx (Zpos (fst (shl_align mx ex (Z.min ex ey))))).
    set (zy := cond_Zopp sy (Zpos (fst (shl_align my ey (Z.min ex ey))))).
    replace (zy - zx) with (- (zx - zy)) by lia.
    apply binary_normalize_swapped.
Qed.

Lemma SFadd_cancel R R' :
  finite_or_zero R -> swapped R R' ->
  SF64add (SF64add (S754_zero false) R) R' = S754_zero false.
Proof.
  intros F [->|(s & s' & -> & ->)].
  - destruct R as [s|s| |s m e]; try contradiction.
    + now destruct s.
    + unfold SF64add, SFadd, SFopp.
      rewrite Z.min_id. unfold shl_align. rewrite Z.sub_diag. cbn [fst].
      replace (cond_Zopp s (Zpos m) + cond_Zopp (negb s) (Zpos m)) with 0
        by (destruct s; cbn [cond_Zopp negb]; lia).
      reflexivity.
  - now destruct s, s'.
Qed.

(** Two opposite differences cancel exactly when they do not overflow. *)
Lemma sub_swap_cancel a b :
  is_finite (a - b)%float = true ->
  (0 + (a - b) + (b - a))%float = 0%float.
Proof.
  intros F. apply is_finite_spec in F. rewrite FloatAxioms.sub_spec in F.
  apply Prim2SF_inj. rewrite !FloatAxioms.add_spec, !FloatAxioms.sub_spec.
  change (Prim2SF 0) with (S754_zero false).
  apply SFadd_cancel; [exact F | apply SFsub_swapped, F].
Qed.

(** [shr_fexp] on a non-negative mantissa: the new exponent and the shifted
    mantissa. *)
Lemma shr_fexp_spec m e l :
  0 <= m ->
  let e1 := Z.max e (fexp prec emax (Zdigits2 m + e)) in
  exists r,
    shr_fexp prec emax m e l = (r, e1) /\ shr_m r = Z.shiftr m (e1 - e).
Proof.
  intros Hm e1. unfold shr_fexp, shr.
  destruct (fexp prec emax (Zdigits2 m + e) - e) as [|n|n] eqn:En.
  - exists (shr_record_of_loc m l). split.
    + f_equal. lia.
    + rewrite shr_record_of_loc_m. replace (e1 - e) with 0 by lia.
      now rewrite Z.shiftr_0_r.
  - exists (iter_pos shr_1 n (shr_record_of_loc m l)). split.
    + f_equal. lia.
    + rewrite shr_iter_m by now rewrite shr_record_of_loc_m.
      rewrite shr_record_of_loc_m. f_equal. lia.
  - exists (shr_record_of_loc m l). split.
    + f_equal. lia.
    + rewrite shr_record_of_loc_m. replace (e1 - e) with 0 by lia.
      now rewrite Z.shiftr_0_r.
Qed.

Lemma round_nearest_even_bounds m l :
  m <= round_nearest_even m l <= m + 1.
Proof.
  destruct l as [|[| |]]; cbn [round_nearest_even]; try lia.
  destruct (Z.even m); lia.
Qed.

Lemma digits2_unique p k :
  2 ^ (k - 1) <= Zpos p < 2 ^ k -> Zpos (digits2_pos p) = k.
Proof.
  intros H. rewrite digits2_log2.
  assert (0 < k).
  { destruct (Z.leb_spec k 0); [|assumption].
    rewrite (Z.pow_neg_r 2 (k - 1)) in H by lia.
    assert (2 ^ k <= 1); [|lia].
    destruct (Z.eq_dec k 0) as [->|]; [simpl; lia|].
    rewrite Z.pow_neg_r by lia. lia. }
  rewrite (Z.log2_unique (Zpos p) (k - 1)); [lia|lia|].
  now replace (Z.succ (k - 1)) with k by lia.
Qed.

(** Rounding a 53- or 54-bit mantissa in the normal range: the result is a
    normal number within two units of the input. *)
Lemma binary_round_aux_normal s q e l :
  2 ^ 52 <= q < 2 ^ 54 -> emin <= e -> e + 2 <= emax - prec ->
  exists m3 e3,
    binary_round_aux prec emax s q e l = S754_finite s m3 e3
    /\ Zpos (digits2_pos m3) = 53
    /\ e <= e3
    /\ q - 1 <= Zpos m3 * 2 ^ (e3 - e) <= q + 2.
Proof.
  intros Hq He Hmax. unfold binary_round_aux.
  destruct q as [|qp|qp]; try lia.
  destruct (shr_fexp_spec (Zpos qp) e l) as (r1 & E1 & M1); [lia|].
  rewrite E1. cbn [Zdigits2] in *.
  set (e1 := Z.max e (fexp prec emax (Zpos (digits2_pos qp) + e))) in *.
  pose proof (round_nearest_even_bounds (shr_m r1) (loc_of_shr_record r1)) as B2.
  remember (round_nearest_even (shr_m r1) (loc_of_shr_record r1)) as m2 eqn:Dm2.
  clear Dm2.
  assert (K : (e1 = e /\ shr_m r1 = Zpos qp /\ Zpos qp < 2 ^ 53)
              \/ (e1 = e + 1 /\ shr_m r1 = Zpos qp / 2 /\ 2 ^ 53 <= Zpos qp)).
  { destruct (Z.ltb_spec (Zpos qp) (2 ^ 53)) as [L|L].
    - left. assert (D : Zpos (digits2_pos qp) = 53) by (apply digits2_unique; lia).
      assert (e1 = e) by (unfold e1, fexp, SpecFloat.emin, prec, emax in *; lia).
      repeat split; try assumption.
      rewrite M1. replace (e1 - e) with 0 by lia. apply Z.shiftr_0_r.
    - right. assert (D : Zpos (digits2_pos qp) = 54) by (apply digits2_unique; lia).
      assert (e1 = e + 1) by (unfold e1, fexp, SpecFloat.emin, prec, emax in *; lia).
      repeat split; try assumption.
      rewrite M1. replace (e1 - e) with 1 by lia.
      now rewrite Z.shiftr_div_pow2 by lia. }
  assert (R2 : 2 ^ 52 <= m2 <= 2 ^ 53).
  { destruct K as [(_ & Km & L)|(_ & Km & L)]; rewrite Km in B2;
      Z.to_euclidean_division_equations; lia. }
  destruct m2 as [|m2p|m2p]; try lia.
  destruct (shr_fexp_spec (Zpos m2p) e1 loc_Exact) as (r2 & E2 & M2); [lia|].
  rewrite E2. cbn [Zdigits2] in *.
  set (e2 := Z.max e1 (fexp prec emax (Zpos (digits2_pos m2p) + e1))) in *.
  assert (K2 : (e2 = e1 /\ shr_m r2 = Zpos m2p /\ Zpos m2p < 2 ^ 53)
               \/ (e2 = e1 + 1 /\ shr_m r2 = 2 ^ 52 /\ Zpos m2p = 2 ^ 53)).
  { destruct (Z.ltb_spec (Zpos m2p) (2 ^ 53)) as [L|L].
    - left. assert (D : Zpos (digits2_pos m2p) = 53) by (apply digits2_unique; lia).
      assert (e2 = e1).
      { unfold e2, fexp, SpecFloat.emin, prec, emax in *. lia. }
      repeat split; try assumption.
      rewrite M2. replace (e2 - e1) with 0 by lia. apply Z.shiftr_0_r.
    - right. assert (Zpos m2p = 2 ^ 53) by lia.
      assert (D : Zpos (digits2_pos m2p) = 54) by (apply digits2_unique; lia).
      assert (e2 = e1 + 1).
      { unfold e2, fexp, SpecFloat.emin, prec, emax in *. lia. }
      repeat split; try assumption.
      rewrite M2. replace (e2 - e1) with 1 by lia.
      rewrite Z.shiftr_div_pow2 by lia. rewrite H. reflexivity. }
  assert (P3 : 2 ^ 52 <= shr_m r2 < 2 ^ 53).
  { destruct K2 as [(_ & Km & L)|(_ & Km & L)]; rewrite Km; lia. }
  destruct (shr_m r2) as [|m3|m3] eqn:E3; try lia.
  assert (Hle : (e2 <=? emax - prec) = true).
  { apply Z.leb_le. destruct K as [(-> & _)|(-> & _)], K2 as [(-> & _)|(-> & _)]; lia. }
  rewrite Hle. exists m3, e2. split; [reflexivity|].
  split; [apply digits2_unique; lia|].
  destruct K as [(Ke & Km & L)|(Ke & Km & L)],
           K2 as [(K2e & K2m & L2)|(K2e & K2m & L2)];
    rewrite Ke in K2e; rewrite K2e; rewrite Km in B2;
    (split; [lia|]).
  - replace (e - e) with 0 by lia. change (2 ^ 0) with 1. lia.
  - replace (e + 1 - e) with 1 by lia. change (2 ^ 1) with 2. lia.
  - replace (e + 1 - e) with 1 by lia. change (2 ^ 1) with 2.
    Z.to_euclidean_division_equations. lia.
  - replace (e + 1 + 1 - e) with 2 by lia. change (2 ^ 2) with 4.
    Z.to_euclidean_division_equations. lia.
Qed.

(** Division of two normal positive numbers whose quotient stays in the
    normal range. *)
Lemma SFdiv_normal mx ex md ed :
  Zpos (digits2_pos mx) = 53 -> Zpos (digits2_pos md) = 53 ->
  emin <= ex - ed - 53 -> ex - ed - 53 + 2 <= emax - prec ->
  exists m3 e3,
    SF64div (S754_finite false mx ex) (S754_finite false md ed)
    = S754_finite false m3 e3
    /\ Zpos (digits2_pos m3) = 53
    /\ ex - ed - 53 <= e3
    /\ Zpos mx * 2 ^ 53 / Zpos md - 1
       <= Zpos m3 * 2 ^ (e3 - (ex - ed - 53))
       <= Zpos mx * 2 ^ 53 / Zpos md + 2.
Proof.
  intros Dx Dd Hlo Hhi.
  unfold SF64div, SFdiv, SFdiv_core_binary. cbn [Zdigits2 xorb].
  rewrite Dx, Dd.
  assert (E : Z.min (fexp prec emax (53 + ex - (53 + ed))) (ex - ed)
              = ex - ed - 53).
  { unfold fexp, SpecFloat.emin, prec, emax in *. lia. }
  rewrite E. replace (ex - ed - (ex - ed - 53)) with 53 by lia.
  rewrite Z.shiftl_mul_pow2 by lia.
  pose proof (digits2_bounds mx) as Bx. rewrite Dx in Bx.
  pose proof (digits2_bounds md) as Bd. rewrite Dd in Bd.
  change (53 - 1) with 52 in *.
  assert (Q : 2 ^ 52 <= Zpos mx * 2 ^ 53 / Zpos md < 2 ^ 54).
  { split.
    - apply Z.div_le_lower_bound; [lia|].
      change (2 ^ 53) with 9007199254740992 in *.
      change (2 ^ 52) with 4503599627370496 in *. nia.
    - apply Z.div_lt_upper_bound; [lia|].
      change (2 ^ 54) with 18014398509481984.
      change (2 ^ 53) with 9007199254740992 in *.
      change (2 ^ 52) with 4503599627370496 in *. nia. }
  unfold Z.div in *.
  destruct (Z.div_eucl (Zpos mx * 2 ^ 53) (Zpos md)) as [q r].
  apply binary_round_aux_normal; assumption.
Qed.

(** Comparing two normal positive numbers through scaled mantissas. *)
Lemma SFltb_normal m e m' e' e0 :
  Zpos (digits2_pos m) = 53 -> Zpos (digits2_pos m') = 53 ->
  e0 <= e -> e0 <= e' ->
  Zpos m * 2 ^ (e - e0) < Zpos m' * 2 ^ (e' - e0) ->
  SFltb (S754_finite false m e) (S754_finite false m' e') = true.
Proof.
  intros D D' He He' H. unfold SFltb, SFcompare.
  pose proof (digits2_bounds m) as B. rewrite D in B.
  pose proof (digits2_bounds m') as B'. rewrite D' in B'.
  change (53 - 1) with 52 in *.
  destruct (Z.compare_spec e e') as [->|L|G].
  - assert (0 < 2 ^ (e' - e0)) by (apply Z.pow_pos_nonneg; lia).
    assert (Zpos m < Zpos m') by nia.
    replace (Pos.compare_cont Eq m m') with (Pos.compare m m') by reflexivity.
    now rewrite (proj2 (Pos.compare_lt_iff m m')).
  - reflexivity.
  - exfalso.
    replace (e - e0) with ((e' - e0) + (e - e')) in H by lia.
    rewrite Z.pow_add_r in H by lia.
    assert (0 < 2 ^ (e' - e0)) by (apply Z.pow_pos_nonneg; lia).
    assert (2 ^ 1 <= 2 ^ (e - e')) by (apply Z.pow_le_mono_r; lia).
    change (2 ^ 1) with 2 in *.
    change (2 ^ 53) with 9007199254740992 in *.
    change (2 ^ 52) with 4503599627370496 in *.
    set (a := 2 ^ (e' - e0)) in *. set (b := 2 ^ (e - e')) in *.
    assert (S1 : Zpos m' * a < 9007199254740992 * a)
      by (apply Z.mul_lt_mono_pos_r; lia).
    assert (S2 : 2 * a <= a * b) by nia.
    assert (S3 : 4503599627370496 * (a * b) <= Zpos m * (a * b))
      by (apply Z.mul_le_mono_nonneg_r; lia).
    lia.
Qed.

Lemma div_lt_60 mx ex :
  Zpos (digits2_pos mx) = 53 -> -1057 <= ex <= 971 ->
  SFltb (SF64div (S754_finite false mx ex) D0)
        (SF64div (S754_finite false mx ex) D60) = true.
Proof.
  intros Dx He. unfold D0, D60.
  destruct (SFdiv_normal mx ex 7649852150251520 (-36) Dx eq_refl)
    as (m0 & e0 & -> & Dm0 & Le0 & B0);
    [unfold SpecFloat.emin, prec, emax; lia ..|].
  destruct (SFdiv_normal mx ex 7649852150251522 (-37) Dx eq_refl)
    as (m6 & e6 & -> & Dm6 & Le6 & B6);
    [unfold SpecFloat.emin, prec, emax; lia ..|].
  apply (SFltb_normal m0 e0 m6 e6 (ex - -36 - 53) Dm0 Dm6); [lia | lia |].
  replace (e6 - (ex - -36 - 53)) with ((e6 - (ex - -37 - 53)) + 1) by lia.
  rewrite Z.pow_add_r by lia. change (2 ^ 1) with 2. rewrite Z.mul_assoc.
  pose proof (digits2_bounds mx) as Bx. rewrite Dx in Bx.
  change (53 - 1) with 52 in *.
  change (2 ^ 53) with 9007199254740992 in *.
  change (2 ^ 52) with 4503599627370496 in *.
  remember (Z.pos m0 * 2 ^ (e0 - (ex - -36 - 53))) as V0.
  remember (Z.pos m6 * 2 ^ (e6 - (ex - -37 - 53))) as V6.
  clear HeqV0 HeqV6.
  pose proof (Z.mul_div_le (Zpos mx * 9007199254740992) 7649852150251520 eq_refl) as Q0.
  pose proof (Z.mul_succ_div_gt (Zpos mx * 9007199254740992) 7649852150251522 eq_refl) as Q6.
  remember (Z.pos mx * 9007199254740992 / 7649852150251520) as q0.
  remember (Z.pos mx * 9007199254740992 / 7649852150251522) as q6.
  lia.
Qed.

(** A finite float at least [2^-1005] is a positive normal number. *)
Lemma normal_range x :
  (0x1p-1005 <=? x)%float = true -> (x <? infinity)%float = true ->
  exists mx ex,
    Prim2SF x = S754_finite false mx ex
    /\ Zpos (digits2_pos mx) = 53 /\ -1057 <= ex <= 971.
Proof.
  rewrite FloatAxioms.leb_spec, FloatAxioms.ltb_spec.
  change (Prim2SF 0x1p-1005) with (S754_finite false 4503599627370496 (-1057)).
  change (Prim2SF infinity) with (S754_infinity false).
  pose proof (Prim2SF_valid x) as V.
  destruct (Prim2SF x) as [s|s| |s m e]; unfold SFleb, SFltb, SFcompare;
    try discriminate.
  - destruct s; discriminate.
  - destruct s; [discriminate|]. intros H _.
    assert (He : -1057 <= e).
    { destruct (Z.compare_spec (-1057) e); try lia; discriminate. }
    exists m, e. split; [reflexivity|].
    assert (He' : emin < e) by (unfold SpecFloat.emin, prec, emax; lia).
    pose proof (canonical_normal m e V He') as D.
    split; [exact D|].
    unfold SpecFloat.valid_binary, bounded in V.
    apply andb_prop in V as [_ V]. apply Z.leb_le in V.
    unfold prec, emax in V. lia.
Qed.

Lemma div_lt_at_60 x :
  (0x1p-1005 <=? x)%float = true -> (x <? infinity)%float = true ->
  (x / 111320 <? x / (111320 * py_max 0x1.0000000000001p-1 eps))%float = true.
Proof.
  intros Hlo Hhi.
  destruct (normal_range x Hlo Hhi) as (mx & ex & E & D & R).
  rewrite FloatAxioms.ltb_spec, !FloatAxioms.div_spec, E.
  apply (div_lt_60 mx ex D R).
Qed.

Lemma digits2_le_pow p k :
  0 <= k -> Zpos p <= 2 ^ k -> Zpos (digits2_pos p) <= k + 1.
Proof.
  intros Hk H. rewrite digits2_log2.
  apply Z.add_le_mono_r.
  rewrite <- (Z.log2_pow2 k Hk). apply Z.log2_le_mono, H.
Qed.

Lemma digits2_mul_le p q :
  Zpos (digits2_pos (p * q)) <= Zpos (digits2_pos p) + Zpos (digits2_pos q).
Proof.
  pose proof (digits2_bounds p) as [_ Hp].
  pose proof (digits2_bounds q) as [_ Hq].
  rewrite (digits2_log2 (p * q)).
  assert (Z.log2 (Zpos (p * q)) < Zpos (digits2_pos p) + Zpos (digits2_pos q)); [|lia].
  apply Z.log2_lt_pow2; [lia|].
  rewrite Z.pow_add_r by lia. rewrite Pos2Z.inj_mul.
  apply Z.mul_lt_mono_nonneg; lia.
Qed.

(** Rounding a mantissa whose magnitude is below [2^1023] never overflows. *)
Lemma binary_round_aux_bounded s m e l :
  Zpos (digits2_pos m) + e <= 1023 -> e <= emax - prec ->
  finite_or_zero (binary_round_aux prec emax s (Zpos m) e l).
Proof.
  intros Hmag He. unfold binary_round_aux.
  destruct (shr_fexp_spec (Zpos m) e l) as (r1 & E1 & M1); [lia|].
  rewrite E1. cbn [Zdigits2] in *.
  set (d := Zpos (digits2_pos m)) in *.
  set (e1 := Z.max e (fexp prec emax (d + e))) in *.
  assert (He1 : e <= e1 <= emax - prec).
  { unfold e1, fexp, SpecFloat.emin, prec, emax in *. lia. }
  pose proof (round_nearest_even_bounds (shr_m r1) (loc_of_shr_record r1)) as B2.
  remember (round_nearest_even (shr_m r1) (loc_of_shr_record r1)) as m2 eqn:Dm2.
  clear Dm2.
  assert (N1 : 0 <= shr_m r1) by (rewrite M1; apply Z.shiftr_nonneg; lia).
  assert (U1 : shr_m r1 < 2 ^ Z.max 0 (d - (e1 - e))).
  { rewrite M1, Z.shiftr_div_pow2 by lia.
    pose proof (digits2_bounds m) as [_ Hm]. fold d in Hm.
    apply Z.div_lt_upper_bound; [apply Z.pow_pos_nonneg; lia|].
    rewrite <- Z.pow_add_r by lia.
    eapply Z.lt_le_trans; [exact Hm|].
    apply Z.pow_le_mono_r; lia. }
  destruct (shr_fexp_spec m2 e1 loc_Exact) as (r2 & E2 & M2); [lia|].
  rewrite E2.
  set (e2 := Z.max e1 (fexp prec emax (Zdigits2 m2 + e1))) in *.
  assert (N2 : 0 <= shr_m r2) by (rewrite M2; apply Z.shiftr_nonneg; lia).
  destruct (shr_m r2) as [|m3|m3] eqn:E3; [exact I | | lia].
  assert (He2 : (e2 <=? emax - prec) = true).
  { apply Z.leb_le. unfold e2. apply Z.max_lub; [lia|].
    destruct m2 as [|p2|p2]; cbn [Zdigits2].
    - unfold fexp, SpecFloat.emin, prec, emax in *. lia.
    - assert (D2 : Zpos (digits2_pos p2) <= Z.max 0 (d - (e1 - e)) + 1).
      { apply digits2_le_pow; lia. }
      unfold fexp, SpecFloat.emin, prec, emax in *. lia.
    - lia. }
  rewrite He2. exact I.
Qed.

Lemma valid_mag s m e :
  valid_binary (S754_finite s m e) = true ->
  Zpos (digits2_pos m) + e <= emax /\ e <= emax - prec.
Proof.
  unfold SpecFloat.valid_binary, bounded, canonical_mantissa, fexp.
  intros H. apply andb_prop in H as [C B].
  apply Z.eqb_eq in C. apply Z.leb_le in B.
  unfold SpecFloat.emin, prec, emax in *. lia.
Qed.

(** Multiplying by a finite factor below [1/2] keeps a finite number
    finite. *)
Lemma SFmul_small_finite x s m e :
  valid_binary x = true -> finite_or_zero x ->
  Zpos (digits2_pos m) + e <= -1 -> e <= 0 ->
  finite_or_zero (SF64mul x (S754_finite s m e)).
Proof.
  intros V F Hm He.
  destruct x as [sx|sx| |sx mx ex]; try contradiction; [exact I|].
  unfold SF64mul, SFmul.
  destruct (valid_mag _ _ _ V) as [Vm Ve].
  apply binary_round_aux_bounded.
  - pose proof (digits2_mul_le mx m). unfold emax in *. lia.
  - unfold emax, prec in *. lia.
Qed.

Lemma is_finite_of_spec a : finite_or_zero (Prim2SF a) -> is_finite a = true.
Proof.
  unfold is_finite, is_nan, is_infinity.
  rewrite !FloatAxioms.eqb_spec, FloatAxioms.abs_spec.
  change (Prim2SF infinity) with (S754_infinity false).
  destruct (Prim2SF a) as [s|s| |s m e]; try contradiction; intros _.
  - reflexivity.
  - unfold SFeqb, SFcompare, SFabs.
    rewrite Z.compare_refl, Pos.compare_cont_refl. now destruct s.
Qed.

(** [math.radians] of a finite number is finite. *)
Lemma radians_finite x : is_finite x = true -> is_finite (math_radians x) = true.
Proof.
  intros F. apply is_finite_of_spec. unfold math_radians.
  rewrite FloatAxioms.mul_spec.
  change (Prim2SF degToRad) with (S754_finite false 5030569068109113 (-58)).
  apply SFmul_small_finite.
  - apply Prim2SF_valid.
  - apply is_finite_spec, F.
  - now vm_compute.
  - lia.
Qed.

End B64.

(** * The loop of [polygon_centroid] *)

Section Loop.

Variable pts : list vertex.
Let n := length pts.

Lemma getitem_cyc i : (i < n)%nat -> getitem pts i = Ok (cyc pts i).
Proof.
  intros H. unfold getitem, cyc. fold n.
  rewrite Nat.mod_small by exact H.
  now rewrite (nth_error_nth' pts (PyFloat 1 0, PyFloat 1 0) H).
Qed.

Lemma getitem_wrap i :
  (0 < n)%nat -> getitem pts ((i + 1) mod n) = Ok (cyc pts (i + 1)).
Proof.
  intros H. unfold getitem, cyc. fold n.
  assert (L : ((i + 1) mod n < n)%nat) by (apply Nat.mod_upper_bound; lia).
  now rewrite (nth_error_nth' pts (PyFloat 1 0, PyFloat 1 0) L).
Qed.

Lemma py_mod_pos i : (0 < n)%nat -> py_mod i n = Ok (i mod n)%nat.
Proof. unfold py_mod. destruct n; [lia | reflexivity]. Qed.

(** No subscript of the loop is out of range, and [% n] has [n > 0]. *)
Lemma loop_body_ok s i :
  (i < n)%nat -> loop_body pts n s i = Ok (loop_step pts s i).
Proof.
  intros H. unfold loop_body.
  rewrite (getitem_cyc i H). cbn [bind].
  rewrite py_mod_pos by lia. cbn [bind].
  rewrite getitem_wrap by lia. reflexivity.
Qed.

Lemma for_range_ok idx : forall s,
  Forall (fun i => (i < n)%nat) idx ->
  for_range pts n idx s = Ok (fold_left (loop_step pts) idx s).
Proof.
  induction idx as [|i idx IH]; intros s H; [reflexivity|].
  inversion H as [|? ? Hi Hidx]; subst.
  cbn [for_range fold_left]. rewrite (loop_body_ok s i Hi). cbn [bind].
  apply IH, Hidx.
Qed.

Lemma fold_step_A idx : forall s,
  acc_A (fold_left (loop_step pts) idx s)
  = fold_left (fun a i => a + cross_i pts i) idx (acc_A s).
Proof. induction idx; intros s; cbn [fold_left]; [|rewrite IHidx]; reflexivity. Qed.

Lemma fold_step_Cx idx : forall s,
  acc_Cx (fold_left (loop_step pts) idx s)
  = fold_left
      (fun a i => a + (vx (cyc pts i) + vx (cyc pts (i + 1))) * cross_i pts i)
      idx (acc_Cx s).
Proof. induction idx; intros s; cbn [fold_left]; [|rewrite IHidx]; reflexivity. Qed.

Lemma fold_step_Cy idx : forall s,
  acc_Cy (fold_left (loop_step pts) idx s)
  = fold_left
      (fun a i => a + (vy (cyc pts i) + vy (cyc pts (i + 1))) * cross_i pts i)
      idx (acc_Cy s).
Proof. induction idx; intros s; cbn [fold_left]; [|rewrite IHidx]; reflexivity. Qed.

(** The loop always completes, with the three sums of the specification. *)
Lemma loop_result :
  for_range pts n (seq 0 n) (Acc 0 0 0)
  = Ok (Acc (fsum n (cross_i pts)) (moment_x pts) (moment_y pts)).
Proof.
  rewrite for_range_ok.
  - f_equal.
    destruct (fold_left (loop_step pts) (seq 0 n) (Acc 0 0 0)) as [a cx cy] eqn:E.
    pose proof (fold_step_A (seq 0 n) (Acc 0 0 0)) as HA.
    pose proof (fold_step_Cx (seq 0 n) (Acc 0 0 0)) as HX.
    pose proof (fold_step_Cy (seq 0 n) (Acc 0 0 0)) as HY.
    rewrite E in HA, HX, HY. cbn [acc_A acc_Cx acc_Cy] in HA, HX, HY.
    subst a cx cy. reflexivity.
  - apply Forall_forall. intros i Hi. apply in_seq in Hi. lia.
Qed.

(** [polygon_centroid] after the loop: the branch on [abs(A) < 1e-12]. *)
Lemma centroid_of_eq alg :
  centroid_of alg pts =
  if abs (signed_area pts) <? eps then
    mx <- py_truediv (py_sum alg (map vx pts)) n ;;
    my <- py_truediv (py_sum alg (map vy pts)) n ;;
    Ok (mx, my)
  else
    cx <- py_div (moment_x pts) (6 * signed_area pts) ;;
    cy <- py_div (moment_y pts) (6 * signed_area pts) ;;
    Ok (cx, cy).
Proof.
  unfold centroid_of. fold n. rewrite loop_result.
  cbn [bind acc_A acc_Cx acc_Cy].
  rewrite (B64.mul_comm (fsum n (cross_i pts)) 0.5).
  reflexivity.
Qed.

End Loop.

(** * Claims about [polygon_centroid] *)

Section Centroid.

Variable alg : sum_algorithm.

Lemma py_truediv_mean (xs : list float) :
  xs <> [] -> (Z.of_nat (length xs) <= PY_SSIZE_T_MAX)%Z ->
  py_truediv (py_sum alg xs) (length xs) = Ok (mean alg xs).
Proof.
  intros Hne Hmax. destruct xs as [|x xs]; [congruence|].
  unfold py_sum, py_truediv, py_div, mean, total.
  rewrite B64.float_of_len_nonzero; [reflexivity | cbn [length]; lia | exact Hmax].
Qed.

(** The zero-area branch on a non-empty list: both means, no error. *)
Lemma fallback_mean (pts : list vertex) :
  pts <> [] -> (Z.of_nat (length pts) <= PY_SSIZE_T_MAX)%Z ->
  (mx <- py_truediv (py_sum alg (map vx pts)) (length pts) ;;
   my <- py_truediv (py_sum alg (map vy pts)) (length pts) ;;
   Ok (mx, my))
  = Ok (mean alg (map vx pts), mean alg (map vy pts)).
Proof.
  intros Hne Hmax.
  assert (L : forall f : vertex -> float,
             py_truediv (py_sum alg (map f pts)) (length pts)
             = Ok (mean alg (map f pts))).
  { intros f. rewrite <- (length_map f pts) at 1.
    apply py_truediv_mean.
    - destruct pts; [congruence | discriminate].
    - now rewrite length_map. }
  rewrite !L. reflexivity.
Qed.

Lemma polygon_centroid_normalized coords pts :
  normalize coords = Ok pts ->
  polygon_centroid alg coords = centroid_of alg pts.
Proof. intros H. unfold polygon_centroid. now rewrite H. Qed.

(** C1: when the normalized list has [n >= 3] points and the signed area
    [A = 0.5 * sum_i cross_i] satisfies [|A| >= 1e-12], [polygon_centroid]
    returns exactly [(Cx / (6A), Cy / (6A))]. *)
Theorem polygon_centroid_formula coords pts :
  normalize coords = Ok pts ->
  (3 <= length pts)%nat ->
  (eps <=? abs (signed_area pts)) = true ->
  polygon_centroid alg coords
  = Ok (moment_x pts / (6 * signed_area pts),
        moment_y pts / (6 * signed_area pts)).
Proof.
  intros Hn _ HA.
  rewrite (polygon_centroid_normalized _ _ Hn), centroid_of_eq.
  apply B64.leb_not_ltb in HA. rewrite HA.
  unfold py_div. rewrite (B64.six_A_nonzero _ HA). reflexivity.
Qed.

(** C3 (amended): when the normalized list is not empty and its signed
    area has [|A| < 1e-12], [polygon_centroid] returns the unweighted mean of
    the normalized vertices' coordinates and raises nothing. *)
Theorem degenerate_mean coords pts :
  normalize coords = Ok pts ->
  pts <> [] ->
  (Z.of_nat (length pts) <= PY_SSIZE_T_MAX)%Z ->
  (abs (signed_area pts) <? eps) = true ->
  polygon_centroid alg coords
  = Ok (mean alg (map vx pts), mean alg (map vy pts)).
Proof.
  intros Hn Hne Hmax HA.
  rewrite (polygon_centroid_normalized _ _ Hn), centroid_of_eq, HA.
  apply fallback_mean; assumption.
Qed.

Lemma item_eq_refl a : item_eq a a = true.
Proof. unfold item_eq. now rewrite Pos.eqb_refl. Qed.

Lemma tuple_eq_refl p : tuple_eq p p = true.
Proof. unfold tuple_eq. now rewrite !item_eq_refl. Qed.

(** Dropping a closing vertex that compares equal to the first one. *)
Lemma normalize_closed c0 rest v :
  tuple_eq c0 v = true ->
  normalize ((c0 :: rest) ++ [v]) = Ok (c0 :: rest).
Proof.
  intros H. unfold normalize. cbn [app].
  change (c0 :: rest ++ [v]) with ((c0 :: rest) ++ [v]).
  now rewrite last_last, H, removelast_last.
Qed.

Lemma normalize_open c0 rest :
  tuple_eq c0 (last (c0 :: rest) c0) = false ->
  normalize (c0 :: rest) = Ok (c0 :: rest).
Proof. intros H. unfold normalize. now rewrite H. Qed.

(** C6: for a list of at least 3 vertices whose first and last vertex are
    distinct, appending the first vertex again (or any vertex that compares
    equal to it) does not change the result of [polygon_centroid]. *)
Theorem closed_open_equivalence c0 rest :
  (3 <= length (c0 :: rest))%nat ->
  tuple_eq c0 (last (c0 :: rest) c0) = false ->
  polygon_centroid alg ((c0 :: rest) ++ [c0])
  = polygon_centroid alg (c0 :: rest)
  /\ (forall v, tuple_eq c0 v = true ->
        polygon_centroid alg ((c0 :: rest) ++ [v])
        = polygon_centroid alg (c0 :: rest)).
Proof.
  intros _ H.
  assert (G : forall v, tuple_eq c0 v = true ->
              polygon_centroid alg ((c0 :: rest) ++ [v])
              = polygon_centroid alg (c0 :: rest)).
  { intros v Hv.
    rewrite (polygon_centroid_normalized _ _ (normalize_closed c0 rest v Hv)).
    now rewrite (polygon_centroid_normalized _ _ (normalize_open c0 rest H)). }
  split; [apply G, tuple_eq_refl | exact G].
Qed.

(** ** Short inputs *)

(** With a non-empty normalized list neither branch can raise. *)
Lemma centroid_of_total pts :
  pts <> [] -> (Z.of_nat (length pts) <= PY_SSIZE_T_MAX)%Z ->
  exists c, centroid_of alg pts = Ok c.
Proof.
  intros Hne Hmax. rewrite centroid_of_eq.
  destruct (abs (signed_area pts) <? eps) eqn:HA.
  - rewrite (fallback_mean pts Hne Hmax). eauto.
  - unfold py_div. rewrite (B64.six_A_nonzero _ HA). cbn [bind]. eauto.
Qed.

(** With an empty normalized list the mean is [0 / 0] on ints. *)
Lemma centroid_of_nil : centroid_of alg [] = Raise ZeroDivisionError.
Proof. reflexivity. Qed.

Lemma removelast_length_le {A : Type} (l : list A) :
  (length (removelast l) <= length l)%nat.
Proof.
  induction l as [|a [|b l] IH]; cbn [removelast length] in *; lia.
Qed.

Lemma normalize_cases coords pts :
  normalize coords = Ok pts ->
  (length pts <= length coords)%nat
  /\ ((2 <= length coords)%nat -> pts <> []).
Proof.
  destruct coords as [|c0 [|c1 rest]]; [discriminate| |].
  - unfold normalize. cbn [last]. rewrite tuple_eq_refl. intros [= <-].
    cbn [removelast length]. split; lia.
  - unfold normalize.
    destruct (tuple_eq c0 (last (c0 :: c1 :: rest) c0)); intros [= <-].
    + split; [apply (removelast_length_le (c0 :: c1 :: rest))|].
      intros _. discriminate.
    + split; [lia|]. intros _. discriminate.
Qed.

Lemma normalize_total c0 rest : exists pts, normalize (c0 :: rest) = Ok pts.
Proof. unfold normalize. destruct (tuple_eq _ _); eauto. Qed.

Lemma polygon_centroid_singleton p :
  polygon_centroid alg [p] = Raise ZeroDivisionError.
Proof.
  unfold polygon_centroid, normalize. cbn [last].
  rewrite tuple_eq_refl. reflexivity.
Qed.

(** C2 (amended): [polygon_centroid] has no vertex-count check.  An input
    whose normalized list has fewer than 3 points fails only when no point is
    left (a one-vertex input), with [ZeroDivisionError]; with one or two
    points left it returns a coordinate pair. *)
Theorem short_input_behaviour coords pts :
  normalize coords = Ok pts ->
  (length pts < 3)%nat ->
  (pts = [] /\ polygon_centroid alg coords = Raise ZeroDivisionError)
  \/ (pts <> [] /\ exists c, polygon_centroid alg coords = Ok c).
Proof.
  intros Hn Hlen. rewrite (polygon_centroid_normalized _ _ Hn).
  destruct pts as [|p pts'] eqn:E.
  - left. split; [reflexivity | apply centroid_of_nil].
  - right. split; [discriminate|]. rewrite <- E in *.
    apply centroid_of_total.
    + subst pts. discriminate.
    + unfold PY_SSIZE_T_MAX. lia.
Qed.

(** The signed area of two vertices is exactly zero unless the cross
    product overflows. *)
Lemma two_point_area p q :
  is_finite (vx p * vy q - vx q * vy p) = true ->
  signed_area [p; q] = 0.
Proof.
  intros F. unfold signed_area, fsum. cbn [length seq fold_left].
  change (cross_i [p; q] 0) with (vx p * vy q - vx q * vy p).
  change (cross_i [p; q] 1) with (vx q * vy p - vx p * vy q).
  rewrite (B64.sub_swap_cancel _ _ F). reflexivity.
Qed.


End Centroid.

Lemma polygon_centroid_formula_witness :
  polygon_centroid NeumaierSum square
  = Ok (moment_x square / (6 * signed_area square),
        moment_y square / (6 * signed_area square)).
Proof.
  apply (polygon_centroid_formula NeumaierSum square square).
  - reflexivity.
  - cbn [length square]. lia.
  - vm_compute. reflexivity.
Defined.

Example square_centroid : polygon_centroid NeumaierSum square = Ok (1, 1).
Proof. vm_compute. reflexivity. Qed.

(** The end-to-end scenario: the square of side 4 has centroid (2, 2), and
    the cross around it has its arm tips [10 / 111320] degrees north and
    south and [10 / (111320 * cos(radians(2)))] degrees east and west. *)
Example end_to_end :
  polygon_centroid NeumaierSum [mkv 1 0 0; mkv 2 4 0; mkv 3 4 4; mkv 4 0 4]
  = Ok (2, 2)
  /\ cross_path_coords cos_table 2 2 10
     = Ok [(2, 2);
           (2, 2 + 10 / 111320); (2, 2 - 10 / 111320);
           (2, 2);
           (2 - 10 / (111320 * 0x1.ffb0278bf0567p-1), 2);
           (2 + 10 / (111320 * 0x1.ffb0278bf0567p-1), 2);
           (2, 2)].
Proof. split; vm_compute; reflexivity. Qed.

(** The empty list fails at [coords[0]]. *)
Example empty_input :
  polygon_centroid PlainSum [] = Raise IndexError
  /\ polygon_centroid NeumaierSum [] = Raise IndexError.
Proof. split; reflexivity. Qed.

(** C3 (as stated) fails on a one-vertex list: the vertex equals itself, the
    normalized list is empty, its area is [0], and the mean divides by
    [n = 0]. *)
Lemma degenerate_mean_counterexample :
  normalize [mkv 1 5 7] = Ok []
  /\ (abs (signed_area []) <? eps) = true
  /\ polygon_centroid PlainSum [mkv 1 5 7] = Raise ZeroDivisionError
  /\ polygon_centroid NeumaierSum [mkv 1 5 7] = Raise ZeroDivisionError.
Proof. repeat split; vm_compute; reflexivity. Qed.

Lemma degenerate_mean_witness :
  polygon_centroid NeumaierSum collinear
  = Ok (mean NeumaierSum (map vx collinear), mean NeumaierSum (map vy collinear)).
Proof.
  apply (degenerate_mean NeumaierSum collinear collinear).
  - reflexivity.
  - discriminate.
  - vm_compute. discriminate.
  - vm_compute. reflexivity.
Defined.

Example collinear_mean :
  polygon_centroid PlainSum collinear = Ok (1, 1)
  /\ polygon_centroid NeumaierSum collinear = Ok (1, 1).
Proof. split; vm_compute; reflexivity. Qed.

(** The two accumulations of [sum] can differ: the mean of three collinear
    points is [0] with plain additions and [1/3] with the compensated sum. *)
Example sum_algorithms_differ :
  polygon_centroid PlainSum [mkv 1 0x1p100 0; mkv 2 1 0; mkv 3 (-0x1p100) 0]
  = Ok (0, 0)
  /\ polygon_centroid NeumaierSum [mkv 1 0x1p100 0; mkv 2 1 0; mkv 3 (-0x1p100) 0]
     = Ok (1 / 3, 0).
Proof. split; vm_compute; reflexivity. Qed.

Lemma closed_open_equivalence_witness :
  polygon_centroid NeumaierSum (square ++ [mkv 1 0 0])
  = polygon_centroid NeumaierSum square
  /\ polygon_centroid NeumaierSum (square ++ [mkv 5 (-0) 0])
     = polygon_centroid NeumaierSum square.
Proof.
  destruct (closed_open_equivalence NeumaierSum (mkv 1 0 0)
              [mkv 2 2 0; mkv 3 2 2; mkv 4 0 2]) as [H1 H2].
  - cbn [length]. lia.
  - vm_compute. reflexivity.
  - split; [exact H1 | apply H2; vm_compute; reflexivity].
Defined.

(** C2 (as stated) fails: two vertices are accepted and their mean is
    returned; nothing is raised. *)
Lemma two_vertices_counterexample :
  normalize [mkv 1 0 0; mkv 2 2 4] = Ok [mkv 1 0 0; mkv 2 2 4]
  /\ polygon_centroid PlainSum [mkv 1 0 0; mkv 2 2 4] = Ok (1, 2)
  /\ polygon_centroid NeumaierSum [mkv 1 0 0; mkv 2 2 4] = Ok (1, 2).
Proof. repeat split; vm_compute; reflexivity. Qed.

Lemma short_input_behaviour_witness :
  ([mkv 1 0 0; mkv 2 2 4] = [] /\
   polygon_centroid NeumaierSum [mkv 1 0 0; mkv 2 2 4] = Raise ZeroDivisionError)
  \/ ([mkv 1 0 0; mkv 2 2 4] <> [] /\
      exists c, polygon_centroid NeumaierSum [mkv 1 0 0; mkv 2 2 4] = Ok c).
Proof.
  apply (short_input_behaviour NeumaierSum [mkv 1 0 0; mkv 2 2 4]).
  - reflexivity.
  - cbn [length]. lia.
Defined.


(** * Claims about [meters_to_deg_offsets] and [cross_path_coords] *)

Section Projector.

Variable libm_cos : float -> float.

Lemma offsets_given_cos lat_deg east_m north_m c :
  math_cos libm_cos (math_radians lat_deg) = Ok c ->
  meters_to_deg_offsets libm_cos lat_deg east_m north_m
  = Ok (east_m / (111320 * py_max c eps), north_m / 111320).
Proof.
  intros Hc. unfold meters_to_deg_offsets.
  change (py_div north_m 111320) with (Ok (north_m / 111320)).
  cbn [bind]. rewrite Hc. cbn [bind].
  unfold py_div. rewrite B64.lon_divisor_nonzero. reflexivity.
Qed.

(** [math.cos] returns at every finite latitude. *)
Lemma math_cos_finite lat_deg :
  cos_keeps_finite libm_cos -> is_finite lat_deg = true ->
  math_cos libm_cos (math_radians lat_deg)
  = Ok (libm_cos (math_radians lat_deg)).
Proof.
  intros Hcos F. specialize (Hcos _ (B64.radians_finite lat_deg F)).
  unfold math_cos. unfold is_finite in Hcos.
  apply negb_true_iff, orb_false_iff in Hcos as [N I].
  now rewrite N, I.
Qed.



Hypothesis cos_zero : libm_cos 0 = 1.

Lemma math_cos_zero : math_cos libm_cos (math_radians 0) = Ok 1.
Proof.
  change (math_radians 0) with 0%float.
  unfold math_cos. rewrite cos_zero. reflexivity.
Qed.

Lemma offsets_at_equator east_m north_m :
  meters_to_deg_offsets libm_cos 0 east_m north_m
  = Ok (east_m / 111320, north_m / 111320).
Proof. apply (offsets_given_cos 0 east_m north_m 1 math_cos_zero). Qed.

(** C8: at latitude 0 equal offsets give equal deltas: the same value in
    both components, and [dlon == dlat] whenever [east_m == north_m]. *)
Theorem equator_symmetry :
  (forall m, exists d, meters_to_deg_offsets libm_cos 0 m m = Ok (d, d))
  /\ (forall east_m north_m,
         (east_m =? north_m) = true ->
         exists dlon dlat,
           meters_to_deg_offsets libm_cos 0 east_m north_m = Ok (dlon, dlat)
           /\ (dlon =? dlat) = true).
Proof.
  split.
  - intros m. exists (m / 111320). apply offsets_at_equator.
  - intros east_m north_m H.
    exists (east_m / 111320), (north_m / 111320).
    split; [apply offsets_at_equator|].
    apply (B64.div_eqb_compat east_m north_m 111320 false 7649852150251520 (-36)
             eq_refl H).
Qed.

Hypothesis cos_60 : libm_cos (math_radians 60) = 0x1.0000000000001p-1.

Lemma math_cos_60 :
  math_cos libm_cos (math_radians 60) = Ok 0x1.0000000000001p-1.
Proof. unfold math_cos. rewrite cos_60. reflexivity. Qed.


End Projector.

Lemma cos_table_keeps_finite : cos_keeps_finite cos_table.
Proof.
  intros x F. unfold cos_table. rewrite F.
  repeat match goal with |- context [if ?b then _ else _] => destruct b end;
    reflexivity.
Qed.



Lemma equator_symmetry_witness :
  (exists d, meters_to_deg_offsets cos_table 0 10 10 = Ok (d, d))
  /\ (exists dlon dlat,
         meters_to_deg_offsets cos_table 0 0 (-0) = Ok (dlon, dlat)
         /\ (dlon =? dlat) = true).
Proof.
  destruct (equator_symmetry cos_table eq_refl) as [H1 H2].
  split; [apply H1 | apply H2; reflexivity].
Defined.



(** Reversing a square of side 10^-4 degrees at (100, 50) moves the
    computed longitude by more than [1e-9]: the two traversals add the same
    terms in another order and round differently. *)
Example reversal_rounds_differently :
  polygon_centroid NeumaierSum far_square
  = Ok (0x1.900069841e052p+6, 0x1.9000769fe4edep+5)
  /\ polygon_centroid NeumaierSum (rev far_square)
     = Ok (0x1.900069849d2d9p+6, 0x1.9000769fe4edep+5)
  /\ (0x1.12e0be826d695p-30
      <? abs (0x1.900069841e052p+6 - 0x1.900069849d2d9p+6)) = true.
Proof. repeat split; vm_compute; reflexivity. Qed.

(** * Further binary64 facts *)

Module B64x.

Lemma nan_of_spec x : Prim2SF x = S754_nan -> x = nan.
Proof. intros H. rewrite <- (SF2Prim_Prim2SF x), H. reflexivity. Qed.

Lemma is_nan_spec x : is_nan x = true -> x = nan.
Proof.
  unfold is_nan. rewrite FloatAxioms.eqb_spec. intros H. apply nan_of_spec.
  destruct (Prim2SF x) eqn:E; try reflexivity;
    rewrite B64.SFeqb_refl in H; discriminate.
Qed.

Lemma add_nan_l y : nan + y = nan.
Proof. apply nan_of_spec. rewrite FloatAxioms.add_spec. reflexivity. Qed.

Lemma add_nan_r x : x + nan = nan.
Proof.
  apply nan_of_spec. rewrite FloatAxioms.add_spec.
  change (Prim2SF nan) with S754_nan. now destruct (Prim2SF x).
Qed.

Lemma sub_nan_l y : nan - y = nan.
Proof. apply nan_of_spec. rewrite FloatAxioms.sub_spec. reflexivity. Qed.

Lemma sub_nan_r x : x - nan = nan.
Proof.
  apply nan_of_spec. rewrite FloatAxioms.sub_spec.
  change (Prim2SF nan) with S754_nan. now destruct (Prim2SF x).
Qed.

Lemma mul_nan_l y : nan * y = nan.
Proof. apply nan_of_spec. rewrite FloatAxioms.mul_spec. reflexivity. Qed.

Lemma mul_nan_r x : x * nan = nan.
Proof.
  apply nan_of_spec. rewrite FloatAxioms.mul_spec.
  change (Prim2SF nan) with S754_nan. now destruct (Prim2SF x).
Qed.

Lemma div_nan_r x : x / nan = nan.
Proof.
  apply nan_of_spec. rewrite FloatAxioms.div_spec.
  change (Prim2SF nan) with S754_nan. now destruct (Prim2SF x).
Qed.

Lemma fold_add_nan (f : nat -> float) idx :
  fold_left (fun s i => s + f i) idx nan = nan.
Proof.
  induction idx as [|i idx IH]; [reflexivity|].
  cbn [fold_left]. now rewrite add_nan_l.
Qed.

(** One NaN term makes the whole sum NaN. *)
Lemma fsum_nan n f i : (i < n)%nat -> f i = nan -> fsum n f = nan.
Proof.
  intros Hi Hf. unfold fsum.
  replace n with (i + S (n - S i))%nat by lia.
  rewrite seq_app, fold_left_app. cbn [seq fold_left Nat.add].
  rewrite Hf, add_nan_r. apply fold_add_nan.
Qed.

End B64x.

Module B64s.

Local Open Scope Z_scope.

(** Rounding keeps the sign. *)
Lemma binary_round_aux_signed s m e l :
  0 <= m -> signed s (binary_round_aux prec emax s m e l).
Proof.
  intros H. unfold binary_round_aux.
  pose proof (B64.shr_fexp_nonneg m e l H) as H1.
  destruct (shr_fexp prec emax m e l) as [r1 e1]. cbn [fst] in H1.
  pose proof (B64.shr_fexp_nonneg _ e1 loc_Exact
                (B64.round_nearest_even_nonneg _ (loc_of_shr_record r1) H1)) as H2.
  destruct (shr_fexp prec emax _ e1 loc_Exact) as [r2 e2]. cbn [fst] in H2.
  destruct (shr_m r2); [reflexivity| |lia].
  destruct (e2 <=? emax - prec); reflexivity.
Qed.

Lemma leb_zero x : nonneg (Prim2SF x) -> (0 <=? x)%float = true.
Proof.
  rewrite FloatAxioms.leb_spec. change (Prim2SF 0) with (S754_zero false).
  destruct (Prim2SF x) as [s|[|]| |[|] m e]; simpl; tauto.
Qed.

Lemma leb_zero_inv x : (0 <=? x)%float = true -> nonneg (Prim2SF x).
Proof.
  rewrite FloatAxioms.leb_spec. change (Prim2SF 0) with (S754_zero false).
  destruct (Prim2SF x) as [s|[|]| |[|] m e]; simpl; try discriminate; tauto.
Qed.

(** A finite number that is not below a positive one is positive. *)
Lemma not_lt_pos x m e :
  finite_or_zero x -> SFltb x (S754_finite false m e) = false ->
  exists mx ex, x = S754_finite false mx ex.
Proof.
  destruct x as [sx|sx| |[|] mx ex]; unfold SFltb, SFcompare; try contradiction;
    try discriminate.
  intros _ _. eauto.
Qed.

Lemma SFmul_pos m e mx ex :
  emin + 2 - (Zpos (digits2_pos m) + e) <= Zpos (digits2_pos mx) + ex ->
  pos (SF64mul (S754_finite false m e) (S754_finite false mx ex)).
Proof.
  intros H. unfold SF64mul, SFmul.
  destruct (B64.binary_round_aux_pos (xorb false false) (m * mx) (e + ex) loc_Exact)
    as [(m' & e' & E)|E].
  - pose proof (B64.digits2_mul m mx). lia.
  - rewrite E. exact I.
  - rewrite E. exact I.
Qed.

(** A non-negative finite number over a positive one is not negative. *)
Lemma SFdiv_nonneg x d :
  nonneg x -> finite_or_zero x -> pos d -> nonneg (SF64div x d).
Proof.
  destruct x as [sx|sx| |[|] mx ex]; try contradiction;
    destruct d as [sd|[|]| |[|] md ed]; try contradiction; intros _ _ _;
    try exact I.
  unfold SF64div, SFdiv, SFdiv_core_binary.
  set (m' := match _ - _ - _ with Z0 => Zpos mx | Zpos _ => Z.shiftl _ _ | Zneg _ => 0 end).
  assert (Hm' : 0 <= m').
  { unfold m'. destruct (_ - _ - _); try lia. apply Z.shiftl_nonneg. lia. }
  pose proof (Z.div_pos m' (Zpos md) Hm' eq_refl) as Hq.
  unfold Z.div in Hq. destruct (Z.div_eucl m' (Zpos md)) as [q r].
  cbv zeta. cbn [xorb].
  match goal with
  | |- nonneg (binary_round_aux _ _ ?s ?m ?e ?l) =>
      pose proof (binary_round_aux_signed s m e l Hq) as S;
      destruct (binary_round_aux prec emax s m e l) as [s'|s'| |s' mm ee]
  end;
    cbn [signed] in S; subst; try exact I; contradiction.
Qed.

(** The longitude divisor is positive whenever the cosine is finite. *)
Lemma lon_divisor_pos c :
  is_finite c = true -> pos (Prim2SF (111320 * py_max c eps)).
Proof.
  intros F. rewrite FloatAxioms.mul_spec.
  change (Prim2SF 111320) with (S754_finite false 7649852150251520 (-36)).
  unfold py_max. destruct (c <? eps)%float eqn:H.
  - rewrite B64.Prim2SF_eps. apply SFmul_pos. now vm_compute.
  - pose proof (B64.not_lt_eps _ H) as A.
    rewrite FloatAxioms.ltb_spec, B64.Prim2SF_eps in H.
    destruct (not_lt_pos _ _ _ (B64.is_finite_spec _ F) H) as (mx & ex & E).
    rewrite E in *. apply SFmul_pos. unfold above, mag in A.
    revert A. generalize (Z.pos (digits2_pos mx) + ex).
    intros z A. change (emin + 2 - (Z.pos (digits2_pos 7649852150251520) + -36))
      with (-1089). lia.
Qed.

Lemma is_infinity_of x :
  is_finite x = false -> is_nan x = false -> is_infinity x = true.
Proof.
  unfold is_finite. intros F N. rewrite N in F. cbn [orb] in F.
  now apply negb_false_iff in F.
Qed.

End B64s.

(** * More on [polygon_centroid] *)

Section CentroidMore.

Variable alg : sum_algorithm.

Lemma polygon_centroid_returns coords :
  (2 <= length coords)%nat ->
  (Z.of_nat (length coords) <= PY_SSIZE_T_MAX)%Z ->
  exists c, polygon_centroid alg coords = Ok c.
Proof.
  intros H2 Hmax.
  destruct coords as [|c0 rest]; [cbn [length] in H2; lia|].
  destruct (normalize_total c0 rest) as [pts Hn].
  rewrite (polygon_centroid_normalized _ _ _ Hn).
  destruct (normalize_cases _ _ Hn) as [Hle Hne].
  apply centroid_of_total; [auto | lia].
Qed.

Lemma cross_i_nan pts i :
  (is_nan (vx (cyc pts i)) || is_nan (vy (cyc pts i))) = true ->
  cross_i pts i = nan.
Proof.
  intros H. unfold cross_i. apply orb_true_iff in H as [H|H];
    apply B64x.is_nan_spec in H; rewrite H.
  - now rewrite B64x.mul_nan_l, B64x.sub_nan_l.
  - now rewrite B64x.mul_nan_r, B64x.sub_nan_r.
Qed.

Lemma cyc_in pts p :
  In p pts -> exists i, (i < length pts)%nat /\ cyc pts i = p.
Proof.
  intros H. destruct (In_nth pts p (PyFloat 1 0, PyFloat 1 0) H) as (i & Hi & E).
  exists i. split; [exact Hi|]. unfold cyc. now rewrite Nat.mod_small.
Qed.

(** X1: a NaN coordinate is never rejected and never skipped: when any
    vertex of the normalized list has a NaN longitude or latitude, the signed
    area is NaN, the test [abs(A) < 1e-12] fails, and [polygon_centroid]
    returns [(nan, nan)] without raising. *)
Theorem nan_vertex_gives_nan coords pts p :
  normalize coords = Ok pts ->
  In p pts ->
  (is_nan (vx p) || is_nan (vy p)) = true ->
  polygon_centroid alg coords = Ok (nan, nan).
Proof.
  intros Hn Hin Hnan.
  rewrite (polygon_centroid_normalized _ _ _ Hn), centroid_of_eq.
  destruct (cyc_in pts p Hin) as (i & Hi & E).
  assert (A : signed_area pts = nan).
  { unfold signed_area. rewrite (B64x.fsum_nan _ _ i Hi).
    - apply B64x.mul_nan_r.
    - apply cross_i_nan. now rewrite E. }
  rewrite A. change (abs nan <? eps) with false. cbn iota.
  rewrite B64x.mul_nan_r. unfold py_div.
  change (nan =? 0) with false. cbn iota. cbn [bind].
  now rewrite !B64x.div_nan_r.
Qed.

End CentroidMore.

Lemma nan_vertex_gives_nan_witness :
  polygon_centroid NeumaierSum [mkv 1 0 0; mkv 2 4 nan; mkv 3 4 4; mkv 4 0 4]
  = Ok (nan, nan).
Proof.
  apply (nan_vertex_gives_nan NeumaierSum _
           [mkv 1 0 0; mkv 2 4 nan; mkv 3 4 4; mkv 4 0 4] (mkv 2 4 nan)).
  - reflexivity.
  - right. left. reflexivity.
  - reflexivity.
Defined.

(** * More on [meters_to_deg_offsets] and [cross_path_coords] *)

Section ProjectorMore.

Variable libm_cos : float -> float.

Lemma math_cos_raises x e :
  math_cos libm_cos x = Raise e ->
  e = ValueError
  /\ ((is_nan (libm_cos x) && negb (is_nan x)) = true
      \/ (is_infinity (libm_cos x) && is_finite x) = true).
Proof.
  unfold math_cos.
  destruct (is_nan (libm_cos x) && negb (is_nan x)) eqn:A.
  - intros [= <-]. auto.
  - destruct (is_infinity (libm_cos x) && is_finite x) eqn:B.
    + intros [= <-]. auto.
    + discriminate.
Qed.

Lemma offsets_raise lat east_m north_m e :
  meters_to_deg_offsets libm_cos lat east_m north_m = Raise e ->
  math_cos libm_cos (math_radians lat) = Raise e.
Proof.
  unfold meters_to_deg_offsets.
  change (py_div north_m 111320) with (Ok (north_m / 111320)).
  cbn [bind]. destruct (math_cos libm_cos (math_radians lat)) as [c|e'].
  - cbn [bind]. unfold py_div. rewrite B64.lon_divisor_nonzero. discriminate.
  - cbn [bind]. intros [= <-]. reflexivity.
Qed.

(** X2: the only failure of [cross_path_coords] is the domain error of
    [math.cos]: it never divides by zero, whatever the cosine, and (with a
    C library whose [cos] is finite on finite arguments) it raises only for
    an infinite latitude; a NaN latitude passes. *)
Theorem cross_path_coords_errors lon lat arm_m e :
  cos_keeps_finite libm_cos ->
  cross_path_coords libm_cos lon lat arm_m = Raise e ->
  e = ValueError /\ is_infinity lat = true.
Proof.
  intros Hcos H. unfold cross_path_coords in H.
  destruct (meters_to_deg_offsets libm_cos lat arm_m arm_m) as [d|e'] eqn:E;
    [discriminate|].
  cbn [bind] in H. injection H as <-.
  apply offsets_raise, math_cos_raises in E as [-> C]. split; [reflexivity|].
  destruct (is_finite lat) eqn:F.
  - pose proof (B64.radians_finite lat F) as Fr.
    pose proof (Hcos _ Fr) as Fc. unfold is_finite in Fc.
    apply negb_true_iff, orb_false_iff in Fc as [N I].
    rewrite N, I in C. destruct C; discriminate.
  - apply B64s.is_infinity_of; [exact F|].
    destruct (is_nan lat) eqn:N; [|reflexivity].
    apply B64x.is_nan_spec in N. subst lat.
    change (math_radians nan) with nan in C.
    change (is_nan nan) with true in C. change (is_finite nan) with false in C.
    rewrite !andb_false_r in C. destruct C; discriminate.
Qed.

(** X3: the clamp [max(cos, 1e-12)] keeps the longitude scale positive:
    at every finite latitude, also past the poles where the cosine is zero
    or negative, a finite eastward offset [east_m >= 0] gives a longitude
    delta [dlon >= 0], never a westward one. *)
Theorem east_offset_never_west lat_deg east_m north_m :
  cos_keeps_finite libm_cos ->
  is_finite lat_deg = true ->
  is_finite east_m = true ->
  (0 <=? east_m) = true ->
  exists dlon dlat,
    meters_to_deg_offsets libm_cos lat_deg east_m north_m = Ok (dlon, dlat)
    /\ (0 <=? dlon) = true.
Proof.
  intros Hcos F Fe He.
  exists (east_m / (111320 * py_max (libm_cos (math_radians lat_deg)) eps)),
         (north_m / 111320).
  split.
  - apply offsets_given_cos, math_cos_finite; assumption.
  - apply B64s.leb_zero. rewrite FloatAxioms.div_spec.
    apply B64s.SFdiv_nonneg.
    + apply B64s.leb_zero_inv, He.
    + apply B64.is_finite_spec, Fe.
    + apply B64s.lon_divisor_pos, Hcos, B64.radians_finite, F.
Qed.

End ProjectorMore.

Lemma cross_path_coords_errors_witness :
  ValueError = ValueError /\ is_infinity infinity = true.
Proof.
  apply (cross_path_coords_errors cos_table 0 infinity 10 ValueError).
  - apply cos_table_keeps_finite.
  - vm_compute. reflexivity.
Defined.

Lemma cos_past_pole_keeps_finite : cos_keeps_finite cos_past_pole.
Proof.
  intros x F. unfold cos_past_pole. destruct (x =? math_radians 100).
  - reflexivity.
  - apply cos_table_keeps_finite, F.
Qed.

Lemma east_offset_never_west_witness :
  exists dlon dlat,
    meters_to_deg_offsets cos_past_pole 100 10 10 = Ok (dlon, dlat)
    /\ (0 <=? dlon) = true.
Proof.
  apply (east_offset_never_west cos_past_pole 100 10 10).
  - apply cos_past_pole_keeps_finite.
  - reflexivity.
  - reflexivity.
  - reflexivity.
Defined.

(** * The coordinate parser *)

Section SplitFacts.

Lemma lstrip_decomp s :
  exists ws, s = ws ++ lstrip s /\ Forall (fun c => isspace c = true) ws.
Proof.
  induction s as [|c r [ws [E F]]]; [now exists []|].
  cbn [lstrip]. destruct (isspace c) eqn:W.
  - exists (c :: ws). split; [cbn; now f_equal | now constructor].
  - now exists [].
Qed.

Lemma rstrip_decomp s :
  exists ws, s = rstrip s ++ ws /\ Forall (fun c => isspace c = true) ws.
Proof.
  destruct (lstrip_decomp (rev s)) as [ws [E F]].
  exists (rev ws). split.
  - unfold rstrip. rewrite <- rev_app_distr, <- E. now rewrite rev_involutive.
  - now apply Forall_rev.
Qed.

Lemma split_runs_leading ws : forall s,
  Forall (fun c => isspace c = true) ws ->
  split_runs [] (ws ++ s) = split_runs [] s.
Proof.
  induction ws as [|c ws IH]; intros s F; [reflexivity|].
  inversion F as [|? ? W F']; subst. cbn [app split_runs]. rewrite W. auto.
Qed.

Lemma split_runs_trailing ws : forall s cur,
  Forall (fun c => isspace c = true) ws ->
  split_runs cur (s ++ ws) = split_runs cur s.
Proof.
  intros s. induction s as [|c r IH]; intros cur F.
  - cbn [app]. destruct ws as [|w ws]; [reflexivity|].
    inversion F as [|? ? W F']; subst. cbn [split_runs]. rewrite W.
    rewrite <- (app_nil_r ws), (split_runs_leading ws [] F').
    now destruct cur.
  - cbn [app split_runs]. destruct (isspace c); [|now apply IH].
    rewrite (IH [] F). reflexivity.
Qed.

Lemma split_runs_map f :
  (forall c, isspace c = false -> f c = c) ->
  (forall c, isspace (f c) = isspace c) ->
  forall s cur, split_runs cur (map f s) = split_runs cur s.
Proof.
  intros Hid Hws s. induction s as [|c r IH]; intros cur; [reflexivity|].
  cbn [map split_runs]. rewrite Hws. destruct (isspace c) eqn:W.
  - now rewrite IH.
  - rewrite (Hid c W). apply IH.
Qed.

Lemma split_strip s : split (strip s) = split s.
Proof.
  unfold split, strip.
  destruct (rstrip_decomp (lstrip s)) as [ws [E F]].
  destruct (lstrip_decomp s) as [ws' [E' F']].
  rewrite E' at 2. rewrite (split_runs_leading ws' _ F').
  rewrite E at 2. now rewrite (split_runs_trailing ws _ [] F).
Qed.

Lemma split_replace old new s :
  isspace old = true -> isspace new = true ->
  split (replace old new s) = split s.
Proof.
  intros Ho Hn. unfold split, replace. apply split_runs_map.
  - intros c W. destruct (N.eqb_spec c old); [congruence | reflexivity].
  - intros c. destruct (N.eqb_spec c old); [congruence | reflexivity].
Qed.

(** The tokens handed to the loop are those of [text.split()]. *)
Lemma tokens_of_text s :
  split (replace tab space (replace newline space (strip s))) = split s.
Proof.
  rewrite !split_replace by reflexivity. apply split_strip.
Qed.

End SplitFacts.

Section ParserFacts.

Variable py_float : pystr -> option float.

Lemma coords_of_text_split text :
  coords_of_text py_float text
  = let coords := fold_left (parse_token py_float) (split text) [] in
    if (length coords <? 3)%nat then None else Some coords.
Proof. unfold coords_of_text. now rewrite tokens_of_text. Qed.

(** X4: the parser reads the text only through its whitespace-separated
    tokens: two texts with the same tokens give the same result, so the
    [strip] and the two [replace] calls change nothing, and any whitespace
    (spaces, tabs, newlines, carriage returns, runs of them) separates
    vertices equally. *)
Theorem coords_depend_on_tokens text1 text2 :
  split text1 = split text2 ->
  coords_of_text py_float text1 = coords_of_text py_float text2.
Proof. intros H. rewrite !coords_of_text_split. now rewrite H. Qed.

Lemma split_runs_word w : forall cur s,
  Forall (fun c => isspace c = false) w ->
  split_runs cur (w ++ s) = split_runs (cur ++ w) s.
Proof.
  induction w as [|c w IH]; intros cur s F.
  - now rewrite app_nil_r.
  - inversion F as [|? ? W F']; subst. cbn [app split_runs]. rewrite W.
    rewrite (IH _ _ F'). now rewrite <- app_assoc.
Qed.

Lemma split_runs_sep sep : forall cur s,
  cur <> [] -> sep <> [] -> blank sep ->
  split_runs cur (sep ++ s) = cur :: split_runs [] s.
Proof.
  intros cur s Hc Hs B. destruct sep as [|c sep]; [congruence|].
  inversion B as [|? ? W B']; subst. cbn [app split_runs]. rewrite W.
  rewrite (split_runs_leading sep s B'). destruct cur; [congruence | reflexivity].
Qed.

Lemma split_spaced items : forall cur tail,
  cur <> [] ->
  Forall (fun it => fst it <> [] /\ blank (fst it) /\ word (snd it)) items ->
  blank tail ->
  split_runs cur (spaced items ++ tail) = cur :: map snd items.
Proof.
  induction items as [|[sep tok] items IH]; intros cur tail Hc F B.
  - cbn [spaced map]. rewrite (split_runs_trailing tail [] cur B).
    cbn. now destruct cur.
  - inversion F as [|? ? (Hs & Bs & Hw & Fw) F']; subst. cbn [fst snd] in *.
    cbn [spaced map snd]. rewrite <- !app_assoc.
    rewrite (split_runs_sep sep cur _ Hc Hs Bs).
    rewrite (split_runs_word tok [] _ Fw). cbn [app].
    now rewrite (IH tok tail Hw F' B).
Qed.

(** [split] undoes the writing of words with whitespace between them. *)
Lemma split_of_spaced lead tok items tail :
  blank lead -> word tok ->
  Forall (fun it => fst it <> [] /\ blank (fst it) /\ word (snd it)) items ->
  blank tail ->
  split (lead ++ tok ++ spaced items ++ tail) = tok :: map snd items.
Proof.
  intros Bl [Hw Fw] F Bt. unfold split.
  rewrite (split_runs_leading lead _ Bl).
  rewrite (split_runs_word tok [] _ Fw). cbn [app].
  apply split_spaced; assumption.
Qed.

Lemma split_pieces_prefix a : forall cur s,
  comma_free a ->
  split_pieces comma cur (a ++ s) = split_pieces comma (cur ++ a) s.
Proof.
  induction a as [|c a IH]; intros cur s F.
  - now rewrite app_nil_r.
  - inversion F as [|? ? Hc F']; subst. cbn [app split_pieces].
    destruct (N.eqb_spec c comma); [contradiction|].
    rewrite (IH _ _ F'). now rewrite <- app_assoc.
Qed.

Lemma split_at_token a b rest :
  comma_free a -> comma_free b ->
  exists more, split_at comma (token_of a b rest) = a :: b :: more.
Proof.
  intros Fa Fb. unfold split_at, token_of.
  rewrite (split_pieces_prefix a [] _ Fa). cbn [app split_pieces].
  rewrite N.eqb_refl.
  rewrite (split_pieces_prefix b [] _ Fb). cbn [app].
  destruct rest as [r|].
  - cbn [split_pieces]. rewrite N.eqb_refl. eauto.
  - cbn [split_pieces]. eauto.
Qed.

(** A token whose first two parts convert appends their values; further
    parts are ignored. *)
Lemma parse_token_lon_lat coords a b rest x y :
  comma_free a -> comma_free b ->
  py_float a = Some x -> py_float b = Some y ->
  vals (parse_token py_float coords (token_of a b rest))
  = vals coords ++ [(x, y)].
Proof.
  intros Fa Fb Ha Hb. unfold parse_token.
  destruct (split_at_token a b rest Fa Fb) as [more ->].
  rewrite Ha, Hb. unfold vals. now rewrite map_app.
Qed.

(** What one token contributes does not depend on what was read before. *)
Lemma parse_token_cases token :
  (forall coords, parse_token py_float coords token = coords)
  \/ (exists x y, forall coords,
        parse_token py_float coords token
        = coords ++ [mkv (Pos.of_succ_nat (length coords)) x y]).
Proof.
  unfold parse_token. destruct (split_at comma token) as [|p0 [|p1 more]]; auto.
  destruct (py_float p0) as [x|]; auto.
  destruct (py_float p1) as [y|]; auto.
  right. now exists x, y.
Qed.

Lemma parse_tokens_vals tokens : forall coords,
  vals (fold_left (parse_token py_float) tokens coords)
  = vals coords ++ vals (fold_left (parse_token py_float) tokens []).
Proof.
  induction tokens as [|t tokens IH]; intros coords.
  - cbn. now rewrite app_nil_r.
  - cbn [fold_left]. rewrite IH. rewrite (IH (parse_token py_float [] t)).
    destruct (parse_token_cases t) as [H|(x & y & H)]; rewrite !H.
    + reflexivity.
    + unfold vals. rewrite map_app. cbn [map app]. now rewrite <- app_assoc.
Qed.

Lemma parse_tokens_length tokens : forall coords,
  (length coords <= length (fold_left (parse_token py_float) tokens coords)
   <= length coords + length tokens)%nat.
Proof.
  induction tokens as [|t tokens IH]; intros coords; cbn [fold_left length]; [lia|].
  specialize (IH (parse_token py_float coords t)).
  destruct (parse_token_cases t) as [H|(x & y & H)]; rewrite H in *.
  - lia.
  - rewrite length_app in IH. cbn [length] in IH. lia.
Qed.

(** X5: tokens are read independently and in order: the values read from
    [l1 ++ l2] are those read from [l1] followed by those read from [l2], a
    token never yields more than one vertex, and a token without a comma
    yields none, whatever surrounds it. *)
Theorem tokens_read_independently l1 l2 :
  vals (fold_left (parse_token py_float) (l1 ++ l2) [])
  = vals (fold_left (parse_token py_float) l1 [])
    ++ vals (fold_left (parse_token py_float) l2 [])
  /\ (forall t, (length (fold_left (parse_token py_float) [t] []) <= 1)%nat)
  /\ (forall t, comma_free t ->
        vals (fold_left (parse_token py_float) (l1 ++ t :: l2) [])
        = vals (fold_left (parse_token py_float) (l1 ++ l2) [])).
Proof.
  assert (A : forall a b,
             vals (fold_left (parse_token py_float) (a ++ b) [])
             = vals (fold_left (parse_token py_float) a [])
               ++ vals (fold_left (parse_token py_float) b [])).
  { intros a b. rewrite fold_left_app. apply parse_tokens_vals. }
  split; [apply A|]. split.
  - intros t. pose proof (parse_tokens_length [t] []) as H. cbn [length] in H.
    lia.
  - intros t Ft. rewrite (A l1 (t :: l2)), (A l1 l2). f_equal.
    cbn [fold_left]. unfold parse_token at 2. unfold split_at.
    rewrite <- (app_nil_r t), (split_pieces_prefix t [] [] Ft).
    reflexivity.
Qed.

Lemma parse_written tokens : forall values,
  Forall2 (reads py_float) tokens values ->
  vals (fold_left (parse_token py_float) tokens []) = values.
Proof.
  induction tokens as [|t tokens IH]; intros values F;
    inversion F as [|? v ? values' R F']; subst; [reflexivity|].
  cbn [fold_left]. rewrite parse_tokens_vals, (IH _ F').
  destruct R as (_ & a & b & rest & -> & Fa & Fb & Ha & Hb).
  rewrite (parse_token_lon_lat [] a b rest _ _ Fa Fb Ha Hb).
  now destruct v.
Qed.

(** X6: reading undoes writing.  A text made of written vertices
    ([lon,lat] or [lon,lat,altitude,...] words), separated by any non-empty
    whitespace and with any whitespace around, parses to exactly the values
    of those vertices, in order, provided there are at least 3 of them. *)
Theorem written_coordinates_parse lead tok items tail values :
  blank lead -> blank tail ->
  Forall (fun it => fst it <> [] /\ blank (fst it)) items ->
  Forall2 (reads py_float) (tok :: map snd items) values ->
  (3 <= length values)%nat ->
  option_map vals (coords_of_text py_float (lead ++ tok ++ spaced items ++ tail))
  = Some values.
Proof.
  intros Bl Bt Fs R L3.
  assert (W : Forall word (tok :: map snd items)).
  { clear - R. revert R. generalize (tok :: map snd items).
    intros ts R. induction R as [|t v ts vs [Hw _] _ IH]; constructor; auto. }
  inversion W as [|? ? Wt Ws]; subst.
  assert (Fi : Forall (fun it => fst it <> [] /\ blank (fst it) /\ word (snd it))
                      items).
  { clear - Fs Ws. induction items as [|[s t] items IH]; constructor.
    - inversion Fs as [|? ? [A B] _]; subst. inversion Ws; subst. cbn in *. auto.
    - inversion Fs; subst. inversion Ws; subst. auto. }
  rewrite coords_of_text_split.
  rewrite (split_of_spaced lead tok items tail Bl Wt Fi Bt). cbv zeta.
  pose proof (parse_written _ _ R) as V.
  assert (Len : length (fold_left (parse_token py_float) (tok :: map snd items) [])
                = length values).
  { rewrite <- V. unfold vals. now rewrite length_map. }
  rewrite Len. replace (length values <? 3)%nat with false
    by (symmetry; apply Nat.ltb_ge; exact L3).
  cbn [option_map]. now rewrite V.
Qed.

End ParserFacts.

Lemma coords_depend_on_tokens_witness :
  coords_of_text float_of_digits
    (lit " 0,0" ++ newline :: tab :: lit "4,0 " ++ [13%N; newline] ++ lit "4,4" ++ [newline])
  = coords_of_text float_of_digits (lit "0,0 4,0 4,4").
Proof.
  apply (coords_depend_on_tokens float_of_digits). vm_compute. reflexivity.
Defined.

Lemma written_coordinates_parse_witness :
  option_map vals
    (coords_of_text float_of_digits
       ([space] ++ lit "0,0,7"
        ++ spaced [([newline; tab], lit "4,0"); ([space], lit "4,4,x,,")]
        ++ [newline]))
  = Some [(0, 0); (4, 0); (4, 4)].
Proof.
  apply (written_coordinates_parse float_of_digits [space] (lit "0,0,7")
           [([newline; tab], lit "4,0"); ([space], lit "4,4,x,,")] [newline]
           [(0, 0); (4, 0); (4, 4)]).
  - repeat constructor.
  - repeat constructor.
  - repeat constructor; discriminate.
  - constructor; [|constructor; [|constructor; [|constructor]]].
    + split; [split; [discriminate | repeat constructor]|].
      exists (lit "0"), (lit "0"), (Some (lit "7")).
      repeat split; repeat constructor; discriminate.
    + split; [split; [discriminate | repeat constructor]|].
      exists (lit "4"), (lit "0"), None.
      repeat split; repeat constructor; discriminate.
    + split; [split; [discriminate | repeat constructor]|].
      exists (lit "4"), (lit "4"), (Some (lit "x,,")).
      repeat split; repeat constructor; discriminate.
  - cbn [length]. lia.
Defined.

Lemma tokens_read_independently_witness :
  vals (fold_left (parse_token float_of_digits)
          ([lit "0,0"; lit "4,0"] ++ lit "junk" :: [lit "4,4"]) [])
  = vals (fold_left (parse_token float_of_digits)
            ([lit "0,0"; lit "4,0"] ++ [lit "4,4"]) []).
Proof.
  destruct (tokens_read_independently float_of_digits
              [lit "0,0"; lit "4,0"] [lit "4,4"]) as (_ & _ & H).
  apply (H (lit "junk")). repeat constructor; discriminate.
Defined.

Section ParsedCentroid.

Variable py_float : pystr -> option float.
Variable alg : sum_algorithm.

Lemma coords_of_text_length text coords :
  coords_of_text py_float text = Some coords -> (3 <= length coords)%nat.
Proof.
  unfold coords_of_text.
  destruct (length _ <? 3)%nat eqn:L; [discriminate|].
  intros [= <-]. apply Nat.ltb_ge in L. exact L.
Qed.

Lemma parsed_length doc name coords :
  parse_first_polygon_coords py_float doc = Parsed name coords ->
  (3 <= length coords)%nat.
Proof.
  unfold parse_first_polygon_coords.
  destruct (doc_polygon doc); [|discriminate].
  destruct (has_text _); [|discriminate].
  destruct (if has_text (doc_ring_coords doc) then _ else _) as [text|];
    [|discriminate].
  destruct (coords_of_text py_float text) as [cs|] eqn:E; [|discriminate].
  intros [= _ <-]. apply (coords_of_text_length _ _ E).
Qed.

(** X7: what the parser hands over is enough for [polygon_centroid]: a
    returned coordinate list has at least 3 vertices, so the centroid
    computation returns a pair and raises nothing. *)
Theorem parsed_polygon_has_centroid doc name coords :
  parse_first_polygon_coords py_float doc = Parsed name coords ->
  (Z.of_nat (length coords) <= PY_SSIZE_T_MAX)%Z ->
  (3 <= length coords)%nat
  /\ exists c, polygon_centroid alg coords = Ok c.
Proof.
  intros H Hmax. pose proof (parsed_length _ _ _ H) as L.
  split; [exact L|]. apply polygon_centroid_returns; [lia | exact Hmax].
Qed.

End ParsedCentroid.

Lemma parsed_polygon_has_centroid_witness :
  (3 <= length [mkv 1 0 0; mkv 2 4 0; mkv 3 4 4; mkv 4 0 4; mkv 5 0 0])%nat
  /\ exists c,
       polygon_centroid NeumaierSum
         [mkv 1 0 0; mkv 2 4 0; mkv 3 4 4; mkv 4 0 4; mkv 5 0 0] = Ok c.
Proof.
  apply (parsed_polygon_has_centroid float_of_digits NeumaierSum square_doc
           (lit "Field")).
  - vm_compute. reflexivity.
  - vm_compute. discriminate.
Defined.

(** * The colour *)

Section Colour.

Local Open Scope N_scope.

Lemma format_02x_byte n :
  n < 256 -> format_02x n = [hex_digit (n / 16); hex_digit (n mod 16)].
Proof.
  intros H. unfold format_02x, format_x.
  destruct (N.ltb_spec n 16) as [L|L].
  - cbn [hex_digits]. apply N.ltb_lt in L. rewrite L. cbn [length Nat.sub repeat app].
    apply N.ltb_lt in L. rewrite (N.div_small n 16 L), (N.mod_small n 16 L).
    reflexivity.
  - assert (E : exists k, N.to_nat (N.log2 n) = S k).
    { pose proof (N.log2_le_mono 16 n L) as M. change (N.log2 16) with 4 in M.
      exists (Nat.pred (N.to_nat (N.log2 n))). lia. }
    destruct E as [k ->]. cbn [hex_digits].
    apply N.ltb_ge in L. rewrite L. apply N.ltb_ge in L.
    assert (Q : n / 16 < 16) by (apply N.Div0.div_lt_upper_bound; lia).
    apply N.ltb_lt in Q. rewrite Q. reflexivity.
Qed.

Lemma hex_value_digit d : d < 16 -> hex_value (hex_digit d) = Some d.
Proof.
  intros H. unfold hex_digit, hex_value.
  destruct (N.ltb_spec d 10) as [L|L].
  - replace ((48 <=? 48 + d) && (48 + d <=? 57))%bool with true.
    + f_equal. lia.
    + symmetry. apply andb_true_iff. split; apply N.leb_le; lia.
  - replace ((48 <=? 87 + d) && (87 + d <=? 57))%bool with false.
    + replace ((97 <=? 87 + d) && (87 + d <=? 102))%bool with true.
      * f_equal. lia.
      * symmetry. apply andb_true_iff. split; apply N.leb_le; lia.
    + symmetry. apply andb_false_iff. right. apply N.leb_gt. lia.
Qed.

Lemma of_hex_byte n : n < 256 -> of_hex 0 (format_02x n) = Some n.
Proof.
  intros H. rewrite (format_02x_byte n H). cbn [of_hex].
  assert (Q : n / 16 < 16) by (apply N.Div0.div_lt_upper_bound; lia).
  assert (R : n mod 16 < 16) by (apply N.mod_lt; lia).
  rewrite (hex_value_digit _ Q), (hex_value_digit _ R). f_equal.
  pose proof (N.div_mod n 16). lia.
Qed.

Variable rng : Type.
Variable randint : N -> N -> rng -> N * rng.
Hypothesis randint_ok : randint_in_range randint.

Lemma draw_byte s : fst (randint 0 255 s) < 256.
Proof. pose proof (randint_ok 0 255 s). lia. Qed.

(** X8: [rand_kml_abgr] draws three times and returns a well-formed KML
    colour: 8 lower-case hexadecimal digits that read back as alpha 255
    (opaque), then the third draw (blue), the second (green) and the first
    (red). *)
Theorem rand_kml_abgr_colour s :
  let r := randint 0 255 s in
  let g := randint 0 255 (snd r) in
  let b := randint 0 255 (snd g) in
  let c := rand_kml_abgr rng randint s in
  length (fst c) = 8%nat
  /\ channels (fst c) = [Some 255; Some (fst b); Some (fst g); Some (fst r)]
  /\ snd c = snd b.
Proof.
  cbv zeta. unfold rand_kml_abgr.
  pose proof (draw_byte s) as Hr.
  destruct (randint 0 255 s) as [r s1]. cbn [fst snd] in *.
  pose proof (draw_byte s1) as Hg.
  destruct (randint 0 255 s1) as [g s2]. cbn [fst snd] in *.
  pose proof (draw_byte s2) as Hb.
  destruct (randint 0 255 s2) as [b s3]. cbn [fst snd] in *.
  pose proof (of_hex_byte r Hr) as Dr.
  pose proof (of_hex_byte g Hg) as Dg.
  pose proof (of_hex_byte b Hb) as Db.
  rewrite (format_02x_byte r Hr) in *.
  rewrite (format_02x_byte g Hg) in *.
  rewrite (format_02x_byte b Hb) in *.
  change (format_02x 255) with [102; 102].
  split; [reflexivity|]. split; [|reflexivity].
  unfold channels. cbn [app firstn skipn].
  now rewrite Dr, Dg, Db.
Qed.

End Colour.

Lemma lcg_in_range : randint_in_range lcg.
Proof.
  intros lo hi s H. unfold lcg. cbn [fst].
  assert (P : (hi - lo + 1 <> 0)%N) by lia.
  pose proof (N.mod_lt s (hi - lo + 1) P) as M.
  revert M. generalize (s mod (hi - lo + 1))%N. intros m M. lia.
Qed.

Lemma rand_kml_abgr_colour_witness :
  length (fst (rand_kml_abgr N lcg 12345%N)) = 8%nat
  /\ channels (fst (rand_kml_abgr N lcg 12345%N))
     = [Some 255; Some 223; Some 126; Some 57]%N
  /\ snd (rand_kml_abgr N lcg 12345%N) = 1449466924%N.
Proof. apply (rand_kml_abgr_colour N lcg lcg_in_range 12345%N). Defined.

(** * The output path *)

Section Paths.

Lemma rfind_from_free c s : forall i, free c s -> rfind_from c s i = (-1)%Z.
Proof.
  induction s as [|x r IH]; intros i F; [reflexivity|].
  inversion F as [|? ? Hx Fr]; subst. cbn [rfind_from]. rewrite (IH _ Fr).
  cbn. destruct (N.eqb_spec x c); [contradiction | reflexivity].
Qed.

Lemma rfind_from_last c a b : forall i,
  (0 <= i)%Z -> free c b ->
  rfind_from c (a ++ c :: b) i = (i + Z.of_nat (length a))%Z.
Proof.
  induction a as [|x a IH]; intros i Hi F.
  - cbn [app rfind_from length]. rewrite (rfind_from_free c b _ F). cbn.
    rewrite N.eqb_refl. lia.
  - cbn [app rfind_from length]. rewrite (IH (i + 1)%Z) by (lia || exact F).
    destruct (Z.leb_spec 0 (i + 1 + Z.of_nat (length a))); lia.
Qed.

Lemma rfind_free c s : free c s -> rfind c s = (-1)%Z.
Proof. apply rfind_from_free. Qed.

Lemma rfind_last c a b :
  free c b -> rfind c (a ++ c :: b) = Z.of_nat (length a).
Proof. intros F. unfold rfind. rewrite rfind_from_last; [lia | lia | exact F]. Qed.

(** A string either lacks [c] or splits at its last [c]. *)
Lemma last_occurrence c s :
  free c s \/ exists a b, s = a ++ c :: b /\ free c b.
Proof.
  induction s as [|x r [F|(a & b & -> & F)]].
  - left. constructor.
  - destruct (N.eqb_spec x c) as [->|Hx].
    + right. exists [], r. auto.
    + left. now constructor.
  - right. exists (x :: a), b. auto.
Qed.

Lemma upto_app a b : upto (Z.of_nat (length a)) (a ++ b) = a.
Proof.
  unfold upto. rewrite Nat2Z.id, firstn_app, Nat.sub_diag, firstn_all.
  cbn [firstn]. apply app_nil_r.
Qed.

Lemma from_app a b : from (Z.of_nat (length a)) (a ++ b) = b.
Proof.
  unfold from. rewrite Nat2Z.id, skipn_app, Nat.sub_diag, skipn_all.
  reflexivity.
Qed.

Lemma snoc_length (a : pystr) c :
  (Z.of_nat (length a) + 1)%Z = Z.of_nat (length (a ++ [c])).
Proof. rewrite length_app. cbn [length]. lia. Qed.

Lemma basename_free p : free sep p -> basename p = p.
Proof. intros F. unfold basename. now rewrite (rfind_free _ _ F). Qed.

Lemma basename_last a b : free sep b -> basename (a ++ sep :: b) = b.
Proof.
  intros F. unfold basename. rewrite (rfind_last _ a b F).
  rewrite (snoc_length a sep).
  change (a ++ sep :: b) with (a ++ [sep] ++ b). rewrite app_assoc.
  apply from_app.
Qed.

Lemma basename_is_free p : free sep (basename p).
Proof.
  destruct (last_occurrence sep p) as [F|(a & b & -> & F)].
  - now rewrite basename_free.
  - now rewrite basename_last.
Qed.

Lemma str_eqb_eq s : forall t, str_eqb s t = true <-> s = t.
Proof.
  induction s as [|a s IH]; intros [|b t]; cbn [str_eqb]; split;
    try discriminate; try reflexivity.
  - intros H. apply andb_prop in H as [E H]. apply N.eqb_eq in E.
    apply IH in H. congruence.
  - intros [= -> ->]. rewrite N.eqb_refl. now apply IH.
Qed.

Lemma lstrip_char_cases c s :
  lstrip_char c s = [] \/ exists x r, lstrip_char c s = x :: r /\ x <> c.
Proof.
  induction s as [|x r IH]; [now left|]. cbn [lstrip_char].
  destruct (N.eqb_spec x c); [exact IH|]. right. eauto.
Qed.

Lemma lstrip_char_all c s :
  lstrip_char c s = [] -> s = repeat c (length s).
Proof.
  induction s as [|x r IH]; [reflexivity|]. cbn [lstrip_char].
  destruct (N.eqb_spec x c) as [->|]; [|discriminate].
  intros H. cbn [length repeat]. f_equal. auto.
Qed.

Lemma rev_repeat (c : N) n : rev (repeat c n) = repeat c n.
Proof.
  induction n as [|n IH]; [reflexivity|].
  cbn [repeat rev]. rewrite IH. symmetry. apply repeat_cons.
Qed.

Lemma dirname_shape p : dir_shape (dirname p).
Proof.
  unfold dirname. set (head := upto _ p).
  destruct (str_eqb head []) eqn:E1.
  - apply str_eqb_eq in E1. cbn [negb andb]. left. exact E1.
  - destruct (str_eqb head (repeat sep (length head))) eqn:E2; cbn [negb andb].
    + apply str_eqb_eq in E2. right. left. split; [|exact E2].
      intros ->. discriminate.
    + right. right. unfold rstrip_char.
      destruct (lstrip_char_cases sep (rev head)) as [H|(x & r & H & Hx)].
      * apply lstrip_char_all in H. rewrite length_rev in H.
        apply (f_equal (@rev N)) in H. rewrite rev_involutive, rev_repeat in H.
        apply str_eqb_eq in H. congruence.
      * rewrite H. split.
        -- cbn [rev]. intros N. apply app_eq_nil in N as [_ N]. discriminate.
        -- unfold endswith. rewrite rev_involutive. cbn [startswith].
           now apply N.eqb_neq.
Qed.

Lemma splitext_prefix p : exists ext, p = fst (splitext p) ++ ext.
Proof.
  unfold splitext.
  destruct (_ <? _)%Z; [destruct (has_non_dot _)|]; cbn [fst].
  - eexists. unfold upto, from. symmetry. apply firstn_skipn.
  - exists []. now rewrite app_nil_r.
  - exists []. now rewrite app_nil_r.
Qed.

Lemma free_app c a b : free c (a ++ b) <-> free c a /\ free c b.
Proof. apply Forall_app. Qed.

Lemma suffix_free : free sep suffix.
Proof. repeat constructor; discriminate. Qed.

(** The file name of the output has no slash and does not start with one. *)
Lemma out_name_free p :
  free sep (fst (splitext (basename p)) ++ suffix).
Proof.
  apply free_app. split; [|apply suffix_free].
  destruct (splitext_prefix (basename p)) as [ext E].
  pose proof (basename_is_free p) as F. rewrite E in F.
  now apply free_app in F.
Qed.

Lemma free_startswith c s : free c s -> startswith c s = false.
Proof.
  destruct s as [|x r]; [reflexivity|]. intros F. inversion F; subst.
  cbn [startswith]. now apply N.eqb_neq.
Qed.

Lemma endswith_snoc c s :
  endswith c s = true -> exists s', s = s' ++ [c].
Proof.
  unfold endswith. destruct (rev s) as [|x r] eqn:E; [discriminate|].
  cbn [startswith]. intros H. apply N.eqb_eq in H. subst x.
  exists (rev r). apply (f_equal (@rev N)) in E.
  rewrite rev_involutive in E. exact E.
Qed.

(** [join d f] puts [f] after a slash, or alone. *)
Lemma join_cases d f :
  free sep f ->
  (d = [] /\ join d f = f)
  \/ (exists d', d = d' ++ [sep] /\ join d f = d' ++ sep :: f)
  \/ (d <> [] /\ endswith sep d = false /\ join d f = d ++ sep :: f).
Proof.
  intros F. unfold join. rewrite (free_startswith _ _ F).
  destruct (str_eqb d []) eqn:E.
  - apply str_eqb_eq in E. subst d. left. auto.
  - cbn [orb]. destruct (endswith sep d) eqn:W.
    + right. left. destruct (endswith_snoc _ _ W) as [d' ->].
      exists d'. split; [reflexivity|]. now rewrite <- app_assoc.
    + right. right. split; [|auto]. intros ->. discriminate.
Qed.

Lemma basename_join d f : free sep f -> basename (join d f) = f.
Proof.
  intros F.
  destruct (join_cases d f F) as [[_ ->]|[(d' & _ & ->)|(_ & _ & ->)]].
  - now apply basename_free.
  - now apply basename_last.
  - now apply basename_last.
Qed.

Lemma dirname_last a b :
  free sep b ->
  dirname (a ++ sep :: b)
  = let head := a ++ [sep] in
    if negb (str_eqb head []) && negb (str_eqb head (repeat sep (length head)))
    then rstrip_char sep head else head.
Proof.
  intros F. unfold dirname. rewrite (rfind_last _ a b F).
  rewrite (snoc_length a sep).
  change (a ++ sep :: b) with (a ++ [sep] ++ b). rewrite app_assoc.
  now rewrite upto_app.
Qed.

Lemma dirname_plain d b :
  d <> [] -> endswith sep d = false -> free sep b ->
  dirname (d ++ sep :: b) = d.
Proof.
  intros Hne W F. rewrite (dirname_last _ _ F). cbv zeta.
  assert (E1 : str_eqb (d ++ [sep]) [] = false) by now destruct d.
  assert (R : rstrip_char sep (d ++ [sep]) = d).
  { unfold rstrip_char. rewrite rev_app_distr. cbn [rev app lstrip_char].
    rewrite N.eqb_refl. unfold endswith in W.
    destruct (rev d) as [|x r] eqn:E.
    - apply (f_equal (@rev N)) in E. rewrite rev_involutive in E. contradiction.
    - cbn [startswith] in W. cbn [lstrip_char]. rewrite W.
      rewrite <- E. apply rev_involutive. }
  destruct (str_eqb (d ++ [sep]) (repeat sep (length (d ++ [sep])))) eqn:E2.
  - exfalso. apply str_eqb_eq in E2.
    apply (f_equal (@rev N)) in E2. rewrite rev_repeat, rev_app_distr in E2.
    rewrite length_app, Nat.add_comm in E2. cbn [length Nat.add repeat rev app] in E2.
    injection E2 as E2. unfold endswith in W. rewrite E2 in W.
    destruct d as [|x d]; [contradiction|]. cbn in W. discriminate.
  - rewrite E1. cbn [negb andb]. exact R.
Qed.

Lemma dirname_join d f :
  dir_shape d -> free sep f -> dirname (join d f) = d.
Proof.
  intros S F.
  destruct (join_cases d f F) as [[-> ->]|[(d' & -> & ->)|(Hne & W & ->)]].
  - unfold dirname. now rewrite (rfind_free _ _ F).
  - rewrite (dirname_last _ _ F). cbv zeta.
    destruct S as [S|[[_ S]|[_ S]]].
    + now apply app_eq_nil in S as [_ S].
    + apply str_eqb_eq in S. rewrite S, andb_false_r. reflexivity.
    + unfold endswith in S. rewrite rev_app_distr in S. cbn in S. discriminate.
  - now apply dirname_plain.
Qed.

(** X9: the cross is saved next to the input: the output path has the
    directory of the input path, and its file name is the input's file name
    without its extension, followed by [_centroid.kml]. *)
Theorem out_path_location kml_path :
  dirname (out_path_of kml_path) = dirname kml_path
  /\ basename (out_path_of kml_path)
     = fst (splitext (basename kml_path)) ++ lit "_centroid.kml".
Proof.
  unfold out_path_of. split.
  - apply dirname_join; [apply dirname_shape | apply out_name_free].
  - apply basename_join, out_name_free.
Qed.

Lemma has_non_dot_app a b : has_non_dot b = true -> has_non_dot (a ++ b) = true.
Proof.
  intros H. induction a as [|x a IH]; [exact H|].
  cbn [app has_non_dot]. now destruct (negb _).
Qed.

(** The root of [t ++ "_centroid.kml"] is [t ++ "_centroid"]. *)
Lemma splitext_out_name t :
  free sep t ->
  fst (splitext (t ++ suffix)) = t ++ lit "_centroid".
Proof.
  intros F. unfold splitext.
  assert (Fs : free sep (t ++ suffix)) by (apply free_app; split; [exact F | apply suffix_free]).
  rewrite (rfind_free _ _ Fs).
  assert (E : t ++ suffix = (t ++ lit "_centroid") ++ extsep :: lit "kml").
  { now rewrite <- app_assoc. }
  assert (D : rfind extsep (t ++ suffix)
              = Z.of_nat (length (t ++ lit "_centroid"))).
  { rewrite E. apply rfind_last. repeat constructor; discriminate. }
  rewrite D.
  replace (-1 <? Z.of_nat (length (t ++ lit "_centroid")))%Z with true
    by (symmetry; apply Z.ltb_lt; lia).
  rewrite E, upto_app. change (-1 + 1)%Z with 0%Z. unfold from at 1.
  cbn [Z.to_nat skipn]. rewrite has_non_dot_app by reflexivity.
  reflexivity.
Qed.

(** X10: the input file is never overwritten: the output path differs from
    the input path, whatever the input path is (also one that already ends in
    [_centroid.kml]). *)
Theorem out_path_is_not_input kml_path : out_path_of kml_path <> kml_path.
Proof.
  intros E. apply (f_equal basename) in E. unfold out_path_of in E.
  rewrite (basename_join _ _ (out_name_free kml_path)) in E.
  set (base := basename kml_path) in *.
  set (t := fst (splitext base)) in *.
  assert (F : free sep t).
  { pose proof (out_name_free kml_path) as F. now apply free_app in F. }
  pose proof (splitext_out_name t F) as S.
  rewrite E in S. fold t in S.
  apply (f_equal (@length N)) in S. rewrite length_app in S.
  cbn [lit list_ascii_of_string map length] in S. lia.
Qed.

Lemma has_non_dot_upto stem rest :
  has_non_dot (from 0 (upto (Z.of_nat (length stem)) (stem ++ rest)))
  = has_non_dot stem.
Proof. now rewrite upto_app. Qed.

(** X11: for an ordinary path [dir/stem.ext] (a directory that does not end
    in a slash, a stem with a character that is not a dot, an extension
    without dot or slash) the output path is [dir/stem_centroid.kml]: the
    extension is replaced, whatever it was. *)
Theorem out_path_ordinary dir stem ext :
  dir <> [] -> endswith sep dir = false ->
  free sep stem -> has_non_dot stem = true ->
  free sep ext -> free extsep ext ->
  out_path_of (dir ++ sep :: stem ++ extsep :: ext)
  = dir ++ sep :: stem ++ lit "_centroid.kml".
Proof.
  intros Hne W Fs Hd Fe Fx. unfold out_path_of.
  assert (Fb : free sep (stem ++ extsep :: ext)).
  { apply free_app. split; [exact Fs|]. constructor; [discriminate | exact Fe]. }
  rewrite (basename_last dir _ Fb), (dirname_plain dir _ Hne W Fb).
  assert (T : fst (splitext (stem ++ extsep :: ext)) = stem).
  { unfold splitext. rewrite (rfind_free _ _ Fb), (rfind_last _ stem ext Fx).
    replace (-1 <? Z.of_nat (length stem))%Z with true
      by (symmetry; apply Z.ltb_lt; lia).
    change (-1 + 1)%Z with 0%Z. rewrite has_non_dot_upto, Hd.
    cbn [fst]. apply upto_app. }
  rewrite T.
  assert (Ff : free sep (stem ++ suffix)).
  { apply free_app. split; [exact Fs | apply suffix_free]. }
  destruct (join_cases dir (stem ++ suffix) Ff)
    as [[E _]|[(d' & E & _)|(_ & _ & E)]].
  - contradiction.
  - rewrite E in W. unfold endswith in W. rewrite rev_app_distr in W.
    cbn in W. discriminate.
  - exact E.
Qed.

End Paths.

Lemma out_path_ordinary_witness :
  out_path_of (lit "maps/field.v2.kmz") = lit "maps/field.v2_centroid.kml".
Proof.
  apply (out_path_ordinary (lit "maps") (lit "field.v2") (lit "kmz")).
  - discriminate.
  - reflexivity.
  - repeat constructor; discriminate.
  - reflexivity.
  - repeat constructor; discriminate.
  - repeat constructor; discriminate.
Defined.

(** * The program *)

Section Run.

Variable libm_cos : float -> float.
Variable py_float : pystr -> option float.
Variable alg : sum_algorithm.
Variable rng : Type.
Variable randint : N -> N -> rng -> N * rng.
Variable float_repr : float -> pystr.
Variable exn_text : exn -> pystr.
Variable et_parse : pystr -> kml_doc + pystr.
Variable save_failure : pystr -> list linestring -> option pystr.

#[local] Abbreviation write :=
  (write_cross_linestring libm_cos rng randint exn_text save_failure).
#[local] Abbreviation proc :=
  (process libm_cos py_float alg rng randint float_repr exn_text et_parse
           save_failure).
#[local] Abbreviation run :=
  (main libm_cos py_float alg rng randint float_repr exn_text et_parse
        save_failure).

Lemma write_cross_linestring_cases kml_path name lat lon arm_m w :
  (exists coords,
      cross_path_coords libm_cos lon lat arm_m = Ok coords
      /\ save_failure (out_path_of kml_path)
           [cross_feature name coords
              (fst (rand_kml_abgr rng randint (w_rng rng w)))] = None
      /\ write kml_path name lat lon arm_m w
         = (World rng
              (w_events rng w
               ++ [Save (out_path_of kml_path)
                     [cross_feature name coords
                        (fst (rand_kml_abgr rng randint (w_rng rng w)))]]
               ++ [Print (lit "Centroid cross saved as " ++ out_path_of kml_path)])
              (snd (rand_kml_abgr rng randint (w_rng rng w))),
            inl tt))
  \/ (exists s msg,
         write kml_path name lat lon arm_m w
         = (World rng (w_events rng w) s, inr msg)).
Proof.
  remember (write kml_path name lat lon arm_m w) as r eqn:E.
  unfold write_cross_linestring, io_bind, lift in E.
  destruct (cross_path_coords libm_cos lon lat arm_m) as [coords|e].
  - unfold io_ret, draw_colour in E.
    destruct (rand_kml_abgr rng randint (w_rng rng w)) as [c s] eqn:R.
    unfold save in E. cbn [fst snd].
    fold (cross_feature name coords c) in E.
    destruct (save_failure (out_path_of kml_path) [cross_feature name coords c])
      as [msg|] eqn:SF.
    + right. exists s, msg. exact E.
    + left. exists coords. split; [reflexivity|]. split; [exact SF|].
      unfold emit in E. cbn [w_events w_rng] in E. now rewrite <- app_assoc in E.
  - right. exists (w_rng rng w), (exn_text e). unfold io_raise in E.
    now destruct w.
Qed.

Lemma process_cases kml_path w :
  (exists line ls,
      proc kml_path w
      = (World rng
           (w_events rng w
            ++ [Print line; Save (out_path_of kml_path) [ls];
                Print (lit "Centroid cross saved as " ++ out_path_of kml_path)])
           (snd (rand_kml_abgr rng randint (w_rng rng w))),
         inl tt))
  \/ (exists new s msg,
         proc kml_path w = (World rng (w_events rng w ++ new) s, inr msg)
         /\ existsb is_save new = false).
Proof.
  assert (Stop : forall r msg,
             r = (w, @inr unit pystr msg) ->
             exists new s msg',
               r = (World rng (w_events rng w ++ new) s, inr msg')
               /\ existsb is_save new = false).
  { intros r msg ->. exists [], (w_rng rng w), msg. rewrite app_nil_r.
    split; [now destruct w | reflexivity]. }
  remember (proc kml_path w) as r eqn:E.
  unfold process, io_bind at 1 in E.
  destruct (et_parse kml_path) as [doc|msg]; [|right; apply (Stop _ _ E)].
  destruct (parse_first_polygon_coords py_float doc) as [|name|name coords];
    try (right; apply (Stop _ _ E)).
  destruct coords as [|c rest]; [right; apply (Stop _ _ E)|].
  unfold io_bind at 1, lift in E.
  destruct (polygon_centroid alg (c :: rest)) as [[lon lat]|e];
    [|right; apply (Stop _ _ E)].
  unfold io_ret, io_bind at 1, emit in E.
  set (w1 := World rng _ _) in E.
  destruct (write_cross_linestring_cases kml_path name lat lon 10 w1)
    as [(coords & _ & _ & W)|(s & msg & W)]; rewrite W in E; subst r.
  - left. eexists _, _. unfold w1. cbn [w_events w_rng].
    rewrite <- !app_assoc. reflexivity.
  - right. eexists [_], s, msg. unfold w1. cbn [w_events].
    split; reflexivity.
Qed.


Lemma math_cos_not_infinite lat :
  cos_keeps_finite libm_cos -> is_infinity lat = false ->
  exists c, math_cos libm_cos (math_radians lat) = Ok c.
Proof.
  intros Hcos I. destruct (is_finite lat) eqn:F.
  - eexists. apply math_cos_finite; assumption.
  - assert (N : is_nan lat = true).
    { unfold is_finite in F. rewrite I, orb_false_r in F.
      now apply negb_false_iff in F. }
    apply B64x.is_nan_spec in N. subst lat.
    change (math_radians nan) with nan. unfold math_cos.
    change (is_nan nan) with true. change (is_finite nan) with false.
    rewrite !andb_false_r. eauto.
Qed.

Lemma cross_path_coords_given_cos lon lat arm_m c :
  math_cos libm_cos (math_radians lat) = Ok c ->
  cross_path_coords libm_cos lon lat arm_m
  = Ok [(lon, lat);
        (lon, lat + arm_m / 111320); (lon, lat - arm_m / 111320);
        (lon, lat);
        (lon - arm_m / (111320 * py_max c eps), lat);
        (lon + arm_m / (111320 * py_max c eps), lat);
        (lon, lat)].
Proof.
  intros H. unfold cross_path_coords.
  rewrite (offsets_given_cos libm_cos lat arm_m arm_m c H). reflexivity.
Qed.

Lemma cross_path_coords_raise lon lat arm_m e :
  math_cos libm_cos (math_radians lat) = Raise e ->
  cross_path_coords libm_cos lon lat arm_m = Raise e.
Proof.
  intros H. unfold cross_path_coords, meters_to_deg_offsets.
  change (py_div arm_m 111320) with (Ok (arm_m / 111320)).
  cbn [bind]. rewrite H. reflexivity.
Qed.


End Run.

